(** * go-linux-serial: the interruptible, line-framed serial reader

    A shallow embedding of [serialreader.go] (package [serial]) and the
    properties of its line framing, its read loops, [Open] and [Close].

    Go strings are byte sequences, so a [string] of the source is a
    [list byte] here; Go [int]s are [Z].  The kernel and the [os] package
    are modelled at the boundary the source calls them:  a table of open
    descriptors, a trace of the system calls issued, and scripted answers
    for the calls whose result the environment decides. *)

From Stdlib Require Import ZArith Strings.Byte Strings.String.
From stdpp Require Import base option list gmap strings.

Local Open Scope Z_scope.

(** ** Byte strings *)

Definition bytes := list byte.

#[global] Instance byte_eq_decision : EqDecision byte := Byte.byte_eq_dec.

(** [B "abc"] is the Go literal ["abc"]; Rocq string literals have no
    escapes, so control bytes are spelled out. *)
Definition B (s : string) : bytes := list_byte_of_string s.
Definition CR : bytes := [x0d].
Definition LF : bytes := [x0a].
Definition CRLF : bytes := CR ++ LF.

(** Go's [len(s)] *)
Definition len (s : bytes) : Z := Z.of_nat (length s).

(** ** [strings.Index] *)

(** [index_of s sep] is the least [i] such that [sep] is a prefix of
    [s[i:]], if there is one.  [strings.Index(s, "")] is [0]. *)
Fixpoint index_of (s sep : bytes) : option nat :=
  if decide (sep `prefix_of` s) then Some 0%nat
  else match s with
       | [] => None
       | _ :: s' => S <$> index_of s' sep
       end.

(** [strings.Index(s, sep)]: the index of the first instance of [sep] in
    [s], or [-1] if [sep] is not present in [s]. *)
Definition Index (s sep : bytes) : Z :=
  match index_of s sep with
  | Some i => Z.of_nat i
  | None => -1
  end.

(** Go slices [s[:i]] and [s[i:]] for in-range [i]. *)
Definition slice_to (s : bytes) (i : Z) : bytes := take (Z.to_nat i) s.
Definition slice_from (s : bytes) (i : Z) : bytes := drop (Z.to_nat i) s.

(** ** The line framer: the inner [for] of [ReadLinesLoop]

<<
    for {
        idx := strings.Index(line, s.config.Delimiter)
        if idx < 0 { break }
        onLine(line[:idx])
        line = line[idx+len(s.config.Delimiter):]
    }
>>
    The loop has no bound of its own, so the model takes fuel: one unit
    per evaluation of the loop body.  [None] is "still running when the
    fuel ran out"; [Some (ls, rest)] is the lines handed to [onLine], in
    order, and the buffer left in [line] at the [break]. *)
Fixpoint frame_lines (fuel : nat) (delim line : bytes) : option (list bytes * bytes) :=
  match fuel with
  | O => None
  | S fuel' =>
      let idx := Index line delim in
      if idx <? 0 then Some ([], line)
      else
        match frame_lines fuel' delim (slice_from line (idx + len delim)) with
        | Some (ls, rest) => Some (slice_to line idx :: ls, rest)
        | None => None
        end
  end.

(** ** Errors *)

(** The [error] values the package produces or passes on. *)
Inductive error :=
| Errno (code : Z)                        (* syscall.Errno *)
| EOF                                     (* io.EOF *)
| ErrInvalid                              (* os.ErrInvalid *)
| ErrFileClosed                           (* os.ErrClosed, "file already closed" *)
| ErrShortWrite                           (* io.ErrShortWrite *)
| ErrUnexpectedEOF                        (* io.ErrUnexpectedEOF *)
| PathError (op path : string) (e : error) (* *fs.PathError *)
| Errorf (msg : string)                   (* fmt.Errorf(msg) *)
| Wrapf (msg : string) (e : error).       (* fmt.Errorf(msg + ": %w", e) *)

#[global] Instance error_eq_decision : EqDecision error.
Proof. solve_decision. Defined.

(** [fmt.Errorf("serialreader closed")], the closed-state error of [ReadLine]. *)
Definition ErrReaderClosed : error := Errorf "serialreader closed".

Definition EBADF : error := Errno 9.
Definition EIO : error := Errno 5.
Definition EINTR : error := Errno 4.

(** ** Constants of [golang.org/x/sys/unix]

    The package is a dependency, not part of this repository, and its
    values are per architecture, so the embedding takes them as an
    interface; [linux_amd64] gives the values of one port, for running the
    model. *)
Class UnixConsts := {
  O_RDWR : Z; O_NOCTTY : Z; O_NONBLOCK : Z;
  TCGETS : Z; TCSETS : Z;
  IGNBRK : Z; BRKINT : Z; PARMRK : Z; ISTRIP : Z;
  INLCR : Z; IGNCR : Z; ICRNL : Z; IXON : Z;
  OPOST : Z;
  ECHO : Z; ECHONL : Z; ICANON : Z; ISIG : Z; IEXTEN : Z;
  CSIZE : Z; PARENB : Z; CS8 : Z; CBAUD : Z;
  B9600 : Z; B19200 : Z; B38400 : Z; B57600 : Z; B115200 : Z; B230400 : Z;
  VMIN : nat; VTIME : nat;
  POLLIN : Z;
  POLLIN_nonzero : POLLIN ≠ 0
}.

#[global] Instance linux_amd64 : UnixConsts := {|
  O_RDWR := 0x2; O_NOCTTY := 0x100; O_NONBLOCK := 0x800;
  TCGETS := 0x5401; TCSETS := 0x5402;
  IGNBRK := 0x1; BRKINT := 0x2; PARMRK := 0x8; ISTRIP := 0x20;
  INLCR := 0x40; IGNCR := 0x80; ICRNL := 0x100; IXON := 0x400;
  OPOST := 0x1;
  ECHO := 0x8; ECHONL := 0x40; ICANON := 0x2; ISIG := 0x1; IEXTEN := 0x8000;
  CSIZE := 0x30; PARENB := 0x100; CS8 := 0x30; CBAUD := 0x100f;
  B9600 := 0xd; B19200 := 0xe; B38400 := 0xf;
  B57600 := 0x1001; B115200 := 0x1002; B230400 := 0x1003;
  VMIN := 6; VTIME := 5;
  POLLIN := 0x1;
  POLLIN_nonzero := ltac:(discriminate)
|}.

(** ** Data model *)

(** [unix.Termios]: the four flag words are [uint32], [Cc] is [[19]uint8]. *)
Record Termios := {
  Iflag : Z; Oflag : Z; Cflag : Z; Lflag : Z;
  Line : Z; Cc : list Z; Ispeed : Z; Ospeed : Z
}.

(** [Config]; [ReadTimeout] is a [time.Duration], an [int64] of nanoseconds. *)
Record Config := {
  Device : string;
  BaudRate : Z;
  Delimiter : bytes;      (* default "\r\n" *)
  ReadTimeout : Z
}.

(** An [*os.File] made by [os.NewFile]: the handle owns the descriptor it
    wraps, [Close] on the handle closes that descriptor, and a closed
    handle refuses further calls with [os.ErrClosed]. *)
Record OsFile := {
  file_fd : Z;
  file_name : string;
  file_closed : bool
}.

(** [SerialReader].  [done] is the channel, [true] once it is closed;
    [closeOnce] is the [sync.Once], [true] once its [Do] has run; a [nil]
    [file] is [None]. *)
Record SerialReader := {
  fd : Z;
  file : option OsFile;
  done : bool;
  closeOnce : bool;
  config : Config;
  pipeR : Z;     (* self-pipe read fd *)
  pipeW : Z      (* self-pipe write fd *)
}.

(** What the package does that the rest of the process can observe: the
    system calls it issues ([close(2)] with its result), the closing of
    [done], and the calls of the two callbacks of [ReadLinesLoop]. *)
Inductive Action :=
| SysOpen (path : string) (flags perm : Z)
| SysIoctlGet (fd req : Z)
| SysIoctlSet (fd req : Z) (t : Termios)
| SysSetNonblock (fd : Z) (nonblocking : bool)
| SysPipe
| SysPoll (fds : list Z)
| SysRead (fd : Z) (count : Z)
| SysWrite (fd : Z) (data : bytes)
| SysClose (fd : Z) (result : option error)
| ChanClose
| CallOnLine (line : bytes)
| CallOnError (e : error).

#[global] Instance Termios_eq_decision : EqDecision Termios.
Proof. solve_decision. Defined.
#[global] Instance Action_eq_decision : EqDecision Action.
Proof. solve_decision. Defined.

(** The part of the process state the package acts on:  the descriptors
    that are open, the error a descriptor's driver will report when it is
    closed (Linux releases the descriptor all the same), and the trace of
    actions so far. *)
Record World := {
  open_fds : gset Z;
  io_errors : gmap Z error;
  trace : list Action
}.

(** ** A state monad over the world *)

Definition M (A : Type) : Type := World → A * World.

#[global] Instance M_ret : MRet M := λ A a w, (a, w).
#[global] Instance M_bind : MBind M := λ A B f m w, let '(a, w') := m w in f a w'.

Definition emit (a : Action) : M unit := λ w,
  (tt, {| open_fds := open_fds w; io_errors := io_errors w; trace := trace w ++ [a] |}).

Definition alloc_fd (n : Z) : M unit := λ w,
  (tt, {| open_fds := {[n]} ∪ open_fds w; io_errors := io_errors w; trace := trace w |}).

(** [close(2)]: [EBADF] on a descriptor that is not open; otherwise the
    descriptor is released and the driver's pending error, if any, is the
    result. *)
Definition sys_close (n : Z) : M (option error) := λ w,
  if decide (n ∈ open_fds w)
  then let r := io_errors w !! n in
       (r, {| open_fds := open_fds w ∖ {[n]}; io_errors := delete n (io_errors w);
              trace := trace w ++ [SysClose n r] |})
  else (Some EBADF, {| open_fds := open_fds w; io_errors := io_errors w;
                       trace := trace w ++ [SysClose n (Some EBADF)] |}).

(** [write(2)] as [Close] uses it (the result is discarded there). *)
Definition sys_write (n : Z) (data : bytes) : M (option error) := λ w,
  let w' := {| open_fds := open_fds w; io_errors := io_errors w;
               trace := trace w ++ [SysWrite n data] |} in
  if decide (n ∈ open_fds w) then (None, w') else (Some EBADF, w').

(** [os.NewFile(uintptr(fd), name)]: [nil] for an invalid descriptor. *)
Definition NewFile (n : Z) (name : string) : option OsFile :=
  if n <? 0 then None
  else Some {| file_fd := n; file_name := name; file_closed := false |}.

(** [Close] of an [os.File]: [os.ErrInvalid] on [nil] is excluded by the caller's
    guard; a handle closed before answers [os.ErrClosed]; otherwise the
    descriptor is closed and a failure comes back as a [*PathError]. *)
Definition file_Close (f : OsFile) : M (OsFile * option error) :=
  if file_closed f then mret (f, Some (PathError "close" (file_name f) ErrFileClosed))
  else
    r ← sys_close (file_fd f);
    mret ({| file_fd := file_fd f; file_name := file_name f; file_closed := true |},
          PathError "close" (file_name f) <$> r).

(** What the kernel answers to the calls [Open] makes. *)
Record OpenAnswers := {
  ans_open : Z + error;          (* syscall.Open *)
  ans_tcgets : Termios + error;  (* unix.IoctlGetTermios *)
  ans_tcsets : option error;     (* unix.IoctlSetTermios *)
  ans_pipe : (Z * Z) + error     (* unix.Pipe *)
}.

(** What one turn of a read loop meets:  [unix.Poll] fails, or it returns
    with the [Revents] of the device and of the self-pipe; [closed] tells
    whether another goroutine has closed [done] by the time of the
    [select], and [rd] is what [s.file.Read(buf)] returns if the turn gets
    to call it ([data] is [buf[:n]]). *)
Inductive ReadResult :=
| ReadOk (data : bytes)
| ReadErr (e : error).

Inductive Event :=
| EvPollErr (e : error)
| EvPoll (closed : bool) (revDev revPipe : Z) (rd : ReadResult).

(** How a read loop ends on a finite script of events: it returns, or it
    is left waiting in [unix.Poll] with [line] accumulated so far. *)
Inductive Outcome (A : Type) :=
| Return (a : A)
| Waiting (line : bytes).
Arguments Return {A} a.
Arguments Waiting {A} line.

(** What the kernel answers to one [write(2)]: the number of bytes it
    took, or failure with an error number.  [syscall.Write] returns
    [(n, nil)] for the first and [(-1, errno)] for the second, the error
    being nil when the number is 0. *)
Inductive WriteAnswer :=
| WriteOk (n : Z)
| WriteErr (errno : Z).

Definition syscall_Write (a : WriteAnswer) : Z * option error :=
  match a with
  | WriteOk n => (n, None)
  | WriteErr c => (-1, if c =? 0 then None else Some (Errno c))
  end.

(** How [Write] of a [poll.FD] ends on a finite script of answers: it returns
    the count [nn] and an error, it is left in a [write(2)] that has not
    returned with [nn] bytes written before it, or it panics on a count
    larger than what it offered. *)
Inductive FdWriteResult :=
| FdReturn (nn : Z) (err : option error)
| FdBlocked (nn : Z)
| FdPanic.

(** How [WriteLine] ends: it returns its error, or it is left in a
    [write(2)] with [pending] still to be written, or it panics. *)
Inductive WriteOutcome :=
| WReturn (err : option error)
| WBlocked (pending : bytes)
| WPanic.

(** [maxRW] of [internal/poll]: the cap of one [write(2)], [1 << 30]. *)
Definition maxRW : Z := 1073741824.

(** [Write] of the [poll.FD] inside an [os.File] that
    [os.NewFile] made from a blocking descriptor (a stream, not pollable),
    [nn] being the bytes written so far:
<<
    for {
        max := len(p)
        if fd.IsStream && max-nn > maxRW { max = nn + maxRW }
        n, err := ignoringEINTRIO(syscall.Write, fd.Sysfd, p[nn:max])
        if n > 0 {
            if n > max-nn { panic(...) }
            nn += n
        }
        if nn == len(p) { return nn, err }
        if err == syscall.EAGAIN && fd.pd.pollable() { ... }
        if err != nil { return nn, err }
        if n == 0 { return nn, io.ErrUnexpectedEOF }
    }
>>
    [ignoringEINTRIO] repeats the call for as long as it fails with
    EINTR.  Every [write(2)] made is in the trace, with the bytes it
    offers. *)
Fixpoint fd_Write (sysfd : Z) (p : bytes) (nn : Z) (kw : list WriteAnswer)
  : M FdWriteResult :=
  let max := if maxRW <? len p - nn then nn + maxRW else len p in
  _ ← emit (SysWrite sysfd (slice_to (slice_from p nn) (max - nn)));
  match kw with
  | [] => mret (FdBlocked nn)
  | a :: kw' =>
      let '(n, err) := syscall_Write a in
      if decide (err = Some EINTR) then fd_Write sysfd p nn kw'
      else if (0 <? n) && (max - nn <? n) then mret FdPanic
      else
        let nn := if 0 <? n then nn + n else nn in
        if nn =? len p then mret (FdReturn nn err)
        else
          match err with
          | Some e => mret (FdReturn nn (Some e))
          | None =>
              if n =? 0 then mret (FdReturn nn (Some ErrUnexpectedEOF))
              else fd_Write sysfd p nn kw'
          end
  end.

Section serialreader.
Context `{UC : UnixConsts}.

Definition baudToUnix (baud : Z) : Z :=
  if baud =? 9600 then B9600
  else if baud =? 19200 then B19200
  else if baud =? 38400 then B38400
  else if baud =? 57600 then B57600
  else if baud =? 115200 then B115200
  else if baud =? 230400 then B230400
  else B115200 (* fallback *).

(** The attribute edits of [Open], in source order; [x &^= m] is
    [Z.ldiff x m] and [x |= m] is [Z.lor x m], neither leaves [uint32]. *)
Definition configure (cfg : Config) (t : Termios) : Termios :=
  (* Raw mode *)
  let iflag := Z.ldiff (Iflag t)
    (Z.lor IGNBRK (Z.lor BRKINT (Z.lor PARMRK (Z.lor ISTRIP
      (Z.lor INLCR (Z.lor IGNCR (Z.lor ICRNL IXON))))))) in
  let oflag := Z.ldiff (Oflag t) OPOST in
  let lflag := Z.ldiff (Lflag t)
    (Z.lor ECHO (Z.lor ECHONL (Z.lor ICANON (Z.lor ISIG IEXTEN)))) in
  let cflag := Z.ldiff (Cflag t) (Z.lor CSIZE PARENB) in
  let cflag := Z.lor cflag CS8 in
  (* Baud rate *)
  let baud := baudToUnix (BaudRate cfg) in
  let cflag := Z.ldiff cflag CBAUD in
  let cflag := Z.lor cflag baud in
  (* Set VMIN=1, VTIME=0 *)
  let cc := <[VMIN := 1]> (Cc t) in
  let cc := <[VTIME := 0]> cc in
  {| Iflag := iflag; Oflag := oflag; Cflag := cflag; Lflag := lflag;
     Line := Line t; Cc := cc; Ispeed := Ispeed t; Ospeed := Ospeed t |}.

(** [syscall.O_RDWR|syscall.O_NOCTTY|syscall.O_NONBLOCK]; the mode [0666] is 438. *)
Definition open_flags : Z := Z.lor (Z.lor O_RDWR O_NOCTTY) O_NONBLOCK.

Definition Open (k : OpenAnswers) (cfg : Config) : M (option SerialReader * option error) :=
  _ ← emit (SysOpen (Device cfg) open_flags 438);
  match ans_open k with
  | inr err => mret (None, Some (Wrapf "open failed" err))
  | inl fd =>
      _ ← alloc_fd fd;
      _ ← emit (SysIoctlGet fd TCGETS);
      match ans_tcgets k with
      | inr err => mret (None, Some (Wrapf "get termios" err))
      | inl termios =>
          let termios := configure cfg termios in
          _ ← emit (SysIoctlSet fd TCSETS termios);
          match ans_tcsets k with
          | Some err => mret (None, Some (Wrapf "set termios" err))
          | None =>
              (* Turn back into blocking mode now that config is done *)
              _ ← emit (SysSetNonblock fd false);
              (* Create self-pipe for killability *)
              _ ← emit SysPipe;
              match ans_pipe k with
              | inr err => mret (None, Some (Wrapf "pipe" err))
              | inl (r, w) =>
                  _ ← alloc_fd r;
                  _ ← alloc_fd w;
                  mret (Some {| fd := fd;
                                file := NewFile fd (Device cfg);
                                done := false;
                                closeOnce := false;
                                config := cfg;
                                pipeR := r;
                                pipeW := w |}, None)
              end
          end
      end
  end.

(** [s.file.WriteString(data)], which is [Write] of [os.File] on the
    bytes of [data]; [kw] is what the kernel answers to the [write(2)] calls it
    makes on an open handle, in order.
<<
    if err := f.checkValid("write"); err != nil { return 0, err }
    n, e := f.write(b)
    if n < 0 { n = 0 }
    if n != len(b) { err = io.ErrShortWrite }
    epipecheck(f, e)
    if e != nil { err = f.wrapErr("write", e) }
    return n, err
>>
    *)
Definition file_WriteString (f : option OsFile) (data : bytes) (kw : list WriteAnswer)
  : M WriteOutcome :=
  match f with
  | None => mret (WReturn (Some ErrInvalid))
  | Some f =>
      if file_closed f
      then mret (WReturn (Some (PathError "write" (file_name f) ErrFileClosed)))
      else
        r ← fd_Write (file_fd f) data 0 kw;
        match r with
        | FdReturn n e =>
            let err := if n =? len data then None else Some ErrShortWrite in
            mret (WReturn match e with
                          | Some e => Some (PathError "write" (file_name f) e)
                          | None => err
                          end)
        | FdBlocked nn => mret (WBlocked (slice_from data nn))
        | FdPanic => mret WPanic
        end
  end.

(** [WriteLine] returns the error of [WriteString] and drops the count. *)
Definition WriteLine (kw : list WriteAnswer) (s : SerialReader) (line newline : bytes)
  : M WriteOutcome :=
  file_WriteString (file s) (line ++ newline) kw.

(** [s.file.Read(buf)] with [buf] of 4096 bytes: the actions it causes
    and what it returns, [rd] being the kernel's answer on an open
    handle. *)
Definition file_Read (f : option OsFile) (rd : ReadResult) : list Action * ReadResult :=
  match f with
  | None => ([], ReadErr ErrInvalid)
  | Some f =>
      if file_closed f then ([], ReadErr (PathError "read" (file_name f) ErrFileClosed))
      else ([SysRead (file_fd f) 4096], rd)
  end.

(** [Revents&unix.POLLIN != 0] *)
Definition pollin (revents : Z) : bool := negb (Z.land revents POLLIN =? 0).

(** [ReadLine], from the state [line] of its buffer.  The result is the
    trace of the call and its outcome, [Return (result, err)] for
    [return result, err].  Each turn of the [for] takes one event; the
    descriptors polled are [int32(s.fd)] and [int32(s.pipeR)], which are
    the descriptors themselves for the numbers a kernel hands out. *)
Fixpoint ReadLine_from (s : SerialReader) (line : bytes) (evs : list Event)
  : list Action * Outcome (bytes * option error) :=
  let poll := SysPoll [fd s; pipeR s] in
  match evs with
  | [] => ([poll], Waiting line)
  | EvPollErr e :: _ => ([poll], Return ([], Some e))
  | EvPoll closed revDev revPipe rd :: evs' =>
      (* Check killability *)
      if done s || closed then ([poll], Return ([], Some ErrReaderClosed))
      else if pollin revPipe then
        (* Drain pipe *)
        ([poll; SysRead (pipeR s) 1], Return ([], Some ErrReaderClosed))
      else if pollin revDev then
        match file_Read (file s) rd with
        | (acts, ReadErr e) => (poll :: acts, Return ([], Some e))
        | (acts, ReadOk data) =>
            let line := line ++ data in
            let idx := Index line (Delimiter (config s)) in
            if 0 <=? idx then (poll :: acts, Return (slice_to line idx, None))
            else
              let '(tr, out) := ReadLine_from s line evs' in
              (poll :: acts ++ tr, out)
        end
      else
        let '(tr, out) := ReadLine_from s line evs' in
        (poll :: tr, out)
  end.

Definition ReadLine (s : SerialReader) (evs : list Event)
  : list Action * Outcome (bytes * option error) :=
  ReadLine_from s [] evs.

(** [ReadLinesLoop], from the state [line] of its buffer.  [fuel] bounds
    each run of the inner framing loop; [None] means a run of it was
    still going when the fuel ran out. *)
Fixpoint ReadLinesLoop_from (fuel : nat) (s : SerialReader) (line : bytes)
    (evs : list Event) : option (list Action * Outcome ()) :=
  let poll := SysPoll [fd s; pipeR s] in
  match evs with
  | [] => Some ([poll], Waiting line)
  | EvPollErr e :: _ => Some ([poll; CallOnError e], Return ())
  | EvPoll closed revDev revPipe rd :: evs' =>
      (* Check killability *)
      if done s || closed then Some ([poll], Return ())
      else if pollin revPipe then
        (* Drain pipe *)
        Some ([poll; SysRead (pipeR s) 1], Return ())
      else if pollin revDev then
        match file_Read (file s) rd with
        | (acts, ReadErr e) => Some (poll :: acts ++ [CallOnError e], Return ())
        | (acts, ReadOk data) =>
            match frame_lines fuel (Delimiter (config s)) (line ++ data) with
            | None => None
            | Some (ls, rest) =>
                match ReadLinesLoop_from fuel s rest evs' with
                | None => None
                | Some (tr, out) =>
                    Some (poll :: acts ++ (CallOnLine <$> ls) ++ tr, out)
                end
            end
        end
      else
        match ReadLinesLoop_from fuel s line evs' with
        | None => None
        | Some (tr, out) => Some (poll :: tr, out)
        end
  end.

Definition ReadLinesLoop (fuel : nat) (s : SerialReader) (evs : list Event)
  : option (list Action * Outcome ()) :=
  ReadLinesLoop_from fuel s [] evs.

(** [Close].  [closeOnce.Do] runs its function on the first call only;
    calls of [Close] do not interleave inside it, which is what
    [sync.Once] provides. *)
Definition Close (s : SerialReader) : M (SerialReader * option error) :=
  if closeOnce s then mret (s, None)
  else
    _ ← emit ChanClose;
    (* Wake up poll using self-pipe *)
    _ ← (if 0 <? pipeW s then sys_write (pipeW s) [x01] else mret None);
    '(f, err) ← match file s with
                | Some f => '(f', e) ← file_Close f; mret (Some f', e)
                | None => mret (None, None)
                end;
    _ ← sys_close (fd s);
    _ ← (if 0 <? pipeR s then sys_close (pipeR s) else mret None);
    _ ← (if 0 <? pipeW s then sys_close (pipeW s) else mret None);
    mret ({| fd := fd s; file := f; done := true; closeOnce := true;
             config := config s; pipeR := pipeR s; pipeW := pipeW s |}, err).

(** [Close] called [n] times in a row; the results of the calls, in order. *)
Fixpoint Close_times (n : nat) (s : SerialReader) : M (SerialReader * list (option error)) :=
  match n with
  | O => mret (s, [])
  | S n' =>
      '(s1, e) ← Close s;
      '(s2, es) ← Close_times n' s1;
      mret (s2, e :: es)
  end.

End serialreader.

(** The lines handed to [onLine] and the errors handed to [onError], in
    call order. *)
Definition onLine_calls (tr : list Action) : list bytes :=
  omap (λ a, match a with CallOnLine l => Some l | _ => None end) tr.
Definition onError_calls (tr : list Action) : list error :=
  omap (λ a, match a with CallOnError e => Some e | _ => None end) tr.

(** A device read that delivered [data] while nobody closed the reader,
    and a turn in which only the self-pipe is readable. *)
Definition chunk `{UnixConsts} (data : bytes) : Event := EvPoll false POLLIN 0 (ReadOk data).
Definition wakeup `{UnixConsts} : Event := EvPoll false 0 POLLIN (ReadOk []).

(** ** Occurrences of a delimiter (specification side) *)

(** [d] occurs in [s] at offset [i]. *)
Definition occurs_at (d s : bytes) (i : nat) : Prop :=
  (i ≤ length s)%nat ∧ d `prefix_of` drop i s.

#[global] Instance occurs_at_dec d s i : Decision (occurs_at d s i).
Proof. unfold occurs_at. apply _. Defined.

(** [strings.Contains(s, d)] *)
Definition Contains (s d : bytes) : Prop := ∃ i, occurs_at d s i.

(** ** Specification of the framing

    [framed d s ls rest]: the stream [s] reads [l1 d l2 d ... lk d rest]
    with [ls = [l1; ...; lk]], where each delimiter is the first
    occurrence of [d] at or after the end of the previous one, and [rest]
    contains no [d]. *)

Definition first_at (d s : bytes) (i : nat) : Prop :=
  occurs_at d s i ∧ ∀ j, (j < i)%nat → ¬ occurs_at d s j.

Inductive framed (d : bytes) : bytes → list bytes → bytes → Prop :=
| framed_rest s :
    ¬ Contains s d → framed d s [] s
| framed_line l s ls rest :
    first_at d (l ++ d ++ s) (length l) →
    framed d s ls rest →
    framed d (l ++ d ++ s) (l :: ls) rest.

(** All the offsets at which [d] occurs in [s], overlapping or not. *)
Definition occurrences (d s : bytes) : list nat :=
  filter (occurs_at d s) (seq 0 (S (length s))).

(** ** Delimiters that cannot overlap themselves *)

(** [d] has no border: no proper, non-empty suffix of [d] is a prefix of
    it.  Two occurrences of such a [d] cannot overlap.  Any one-byte
    delimiter and CRLF are of this kind. *)
Definition unbordered (d : bytes) : Prop :=
  ∀ t, (0 < t < length d)%nat → drop t d ≠ take (length d - t) d.

(** The offsets of the delimiters in [l1 d l2 d ... lk d rest], the first
    line starting at offset [start]. *)
Fixpoint delimiter_offsets (d : bytes) (start : nat) (ls : list bytes) : list nat :=
  match ls with
  | [] => []
  | l :: ls' => (start + length l)%nat
                :: delimiter_offsets d (start + length l + length d) ls'
  end.

(** An open reader: [done] is not closed and the device handle is live. *)
Definition reader_open (s : SerialReader) : Prop :=
  done s = false ∧ ∃ f, file s = Some f ∧ file_closed f = false.

(** The literal reading of the framing property, for a reader [s] fed
    [chunks]: one [onLine] call per occurrence of the delimiter in the
    concatenation. *)
Definition one_line_per_occurrence `{UnixConsts} (s : SerialReader) (chunks : list bytes) : Prop :=
  ∀ fuel, (length (concat chunks) < fuel)%nat →
    ∃ tr out, ReadLinesLoop fuel s (chunk <$> chunks) = Some (tr, out) ∧
              length (onLine_calls tr) =
                length (occurrences (Delimiter (config s)) (concat chunks)).

(** ** Values for running the model *)

Definition world0 : World := {| open_fds := {[0; 1; 2]}; io_errors := ∅; trace := [] |}.

Definition tty_termios : Termios :=
  {| Iflag := 0x500; Oflag := 0x5; Cflag := 0xbf; Lflag := 0x8a3b;
     Line := 0; Cc := replicate 19 0; Ispeed := 0xf; Ospeed := 0xf |}.

Definition answers_ok : OpenAnswers :=
  {| ans_open := inl 3; ans_tcgets := inl tty_termios; ans_tcsets := None;
     ans_pipe := inl (4, 5) |}.

Definition cfg_of (d : bytes) : Config :=
  {| Device := "/dev/pts/1"; BaudRate := 115200; Delimiter := d; ReadTimeout := 0 |}.

(** The reader [Open] returns for [cfg_of d] when the kernel hands out
    descriptors 3, 4 and 5. *)
Definition reader_of (d : bytes) : SerialReader :=
  {| fd := 3; file := NewFile 3 "/dev/pts/1"; done := false; closeOnce := false;
     config := cfg_of d; pipeR := 4; pipeW := 5 |}.

Definition answers_notty : OpenAnswers :=
  {| ans_open := inl 3; ans_tcgets := inr (Errno 25); ans_tcsets := None;
     ans_pipe := inl (4, 5) |}.

(** The stream of two CRLF-terminated lines used below. *)
Definition two_crlf_lines : bytes := B "a" ++ CRLF ++ B "b" ++ CRLF.

(** A process with the standard streams and the reader's three descriptors. *)
Definition world_open : World :=
  {| open_fds := {[0; 1; 2; 3; 4; 5]}; io_errors := ∅; trace := [] |}.

(** The same, the device driver holding an I/O error to report at close. *)
Definition world_eio : World :=
  {| open_fds := {[0; 1; 2; 3; 4; 5]}; io_errors := {[3 := EIO]}; trace := [] |}.

(** A reader whose pipe read end is descriptor 0, and a process in which
    its descriptors are open. *)
Definition reader_pipe0 : SerialReader :=
  {| fd := 3; file := NewFile 3 "/dev/pts/1"; done := false; closeOnce := false;
     config := cfg_of LF; pipeR := 0; pipeW := 4 |}.

Definition world_pipe0 : World :=
  {| open_fds := {[0; 1; 2; 3; 4]}; io_errors := ∅; trace := [] |}.

(** The system calls of a read loop: the wait on the two descriptors, the
    one-byte read that drains the self-pipe, and the 4096-byte read on a
    live device handle. *)
Definition loop_syscall (s : SerialReader) (a : Action) : Prop :=
  a = SysPoll [fd s; pipeR s] ∨ a = SysRead (pipeR s) 1 ∨
  ∃ f, file s = Some f ∧ file_closed f = false ∧ a = SysRead (file_fd f) 4096.

(** What [ReadLinesLoop] does: these system calls and the calls of its two
    callbacks. *)
Definition loop_action (s : SerialReader) (a : Action) : Prop :=
  loop_syscall s a ∨ (∃ l, a = CallOnLine l) ∨ (∃ e, a = CallOnError e).

(** The errors a device read can hand to a read loop on the script [evs]:
    the kernel's, or the refusal of a nil or closed handle. *)
Definition read_error (s : SerialReader) (evs : list Event) (e : error) : Prop :=
  (∃ closed revDev revPipe, EvPoll closed revDev revPipe (ReadErr e) ∈ evs) ∨
  (file s = None ∧ e = ErrInvalid) ∨
  (∃ f, file s = Some f ∧ file_closed f = true ∧
        e = PathError "read" (file_name f) ErrFileClosed).

(** The bytes the kernel has taken from a run of [write(2)] calls:
    [offers] are the bytes each call offered and [kw] the answers, call by
    call; an answer [WriteOk n] takes the first [n] bytes of its offer,
    a failed call takes nothing. *)
Fixpoint received (offers : list bytes) (kw : list WriteAnswer) : bytes :=
  match offers, kw with
  | d :: offers', WriteOk n :: kw' => take (Z.to_nat n) d ++ received offers' kw'
  | _ :: offers', WriteErr _ :: kw' => received offers' kw'
  | _, _ => []
  end.

(** A script for one [WriteLine]: the first [write(2)] is interrupted, the
    second takes two bytes, the third takes the three bytes left. *)
Definition write_interrupted_short : list WriteAnswer :=
  [WriteErr 4; WriteOk 2; WriteOk 3].

(** ** Proof tactics *)

(** Closes a goal [a ∉ [a1; ...; an]] whose elements differ from [a] by
    their constructors. *)
Ltac not_in_trace :=
  let Hin := fresh "Hin" in
  intros Hin;
  repeat (apply elem_of_cons in Hin as [Hin|Hin]; [discriminate Hin|]);
  by apply elem_of_nil in Hin.

(** Proves an equation between [Z.land]/[Z.lor]/[Z.ldiff] terms bit by bit. *)
Ltac bitwise :=
  apply Z.bits_inj'; intros ?i ?Hi;
  repeat first [ rewrite Z.land_spec | rewrite Z.lor_spec
               | rewrite Z.ldiff_spec | rewrite Z.bits_0 ];
  repeat match goal with
         | |- context [Z.testbit ?x ?i] => destruct (Z.testbit x i)
         end;
  reflexivity.

(** Unfolds the monadic code of [Close] in [H : Close s w = _] and splits
    on its guards and on the descriptor table. *)
Ltac run_Close H :=
  unfold Close, file_Close, sys_close, sys_write, emit, mbind, M_bind, mret, M_ret in H;
  simpl in H;
  repeat (first [ case_decide | case_match ]; simplify_eq/=).

(** ** Facts about [strings.Index] *)

Section index_facts.
Implicit Types s d l : bytes.

Lemma index_of_occurs s d i :
  index_of s d = Some i → occurs_at d s i.
Proof.
  revert i. induction s as [|c s IH]; intros i; simpl.
  - case_decide as Hp; [|done]. intros [= <-]. split; [simpl; lia | done].
  - case_decide as Hp.
    + intros [= <-]. split; [simpl; lia | done].
    + destruct (index_of s d) as [j|] eqn:Hj; [|done].
      intros [= <-]. destruct (IH j eq_refl) as [Hle Hpre].
      split; [simpl; lia | done].
Qed.

Lemma index_of_least s d i j :
  index_of s d = Some i → (j < i)%nat → ¬ occurs_at d s j.
Proof.
  revert i j. induction s as [|c s IH]; intros i j; simpl.
  - case_decide; [|done]. intros [= <-]. lia.
  - case_decide as Hp.
    + intros [= <-]. lia.
    + destruct (index_of s d) as [k|] eqn:Hk; [|done].
      intros [= <-] Hlt [Hle Hpre].
      destruct j as [|j]; [done|].
      apply (IH k j eq_refl); [lia|].
      split; [simpl in Hle; lia | done].
Qed.

Lemma index_of_None s d i : index_of s d = None → ¬ occurs_at d s i.
Proof.
  revert i. induction s as [|c s IH]; intros i; simpl.
  - case_decide as Hp; [done|]. intros _ [Hle Hpre].
    simpl in Hle. assert (i = 0%nat) as -> by lia. done.
  - case_decide as Hp; [done|].
    destruct (index_of s d) eqn:Hk; [done|]. intros _ [Hle Hpre].
    destruct i as [|i]; [done|].
    apply (IH i eq_refl). split; [simpl in Hle; lia | done].
Qed.

Lemma index_of_first s d i :
  occurs_at d s i → (∀ j, (j < i)%nat → ¬ occurs_at d s j) →
  index_of s d = Some i.
Proof.
  intros Hocc Hleast.
  destruct (index_of s d) as [k|] eqn:Hk.
  - f_equal. destruct (Nat.lt_trichotomy k i) as [Hlt|[Heq|Hgt]].
    + exfalso. eapply Hleast; [exact Hlt|]. by eapply index_of_occurs.
    + done.
    + exfalso. exact (index_of_least _ _ _ _ Hk Hgt Hocc).
  - exfalso. by eapply index_of_None.
Qed.

Lemma index_of_empty s : index_of s [] = Some 0%nat.
Proof.
  assert (∀ t : bytes, [] `prefix_of` t) as Hnil by (intros t; apply prefix_nil).
  destruct s; cbn [index_of]; case_decide as Hn; (done || destruct Hn; apply Hnil).
Qed.

Lemma Index_empty s : Index s [] = 0.
Proof. unfold Index. by rewrite index_of_empty. Qed.

Lemma Index_neg s d : Index s d < 0 ↔ index_of s d = None.
Proof. unfold Index. destruct (index_of s d); split; (done || lia). Qed.

Lemma Index_nonneg s d :
  0 ≤ Index s d ↔ ∃ i, index_of s d = Some i ∧ Index s d = Z.of_nat i.
Proof.
  unfold Index. destruct (index_of s d) as [i|]; split.
  - intros _. by exists i.
  - lia.
  - lia.
  - by intros (i & ? & _).
Qed.

(** [Index s d < 0] exactly when [s] does not contain [d]. *)
Lemma Index_neg_not_Contains s d : Index s d < 0 ↔ ¬ Contains s d.
Proof.
  rewrite Index_neg. split.
  - intros HN [i Hi]. by eapply index_of_None.
  - intros HC. destruct (index_of s d) as [i|] eqn:Hi; [|done].
    exfalso. apply HC. exists i. by apply index_of_occurs.
Qed.

(** A hit at [i] splits the buffer as [s[:i] ++ d ++ s[i+len(d):]]. *)
Lemma occurs_at_split s d i :
  occurs_at d s i → s = take i s ++ d ++ drop (i + length d) s.
Proof.
  intros [Hle [k Hk]].
  rewrite <- (take_drop i s) at 1. f_equal.
  rewrite <- drop_drop, Hk. by rewrite drop_app_length.
Qed.

Lemma occurs_at_bound s d i : occurs_at d s i → (i + length d ≤ length s)%nat.
Proof.
  intros [Hle [k Hk]].
  assert (length (drop i s) = length (d ++ k)) as Hl by (by rewrite Hk).
  rewrite length_drop, length_app in Hl. lia.
Qed.
End index_facts.

(** ** Facts about the framing *)

Section framing.
Implicit Types d s l line rest : bytes.
Implicit Types ls : list bytes.

Lemma frame_lines_unfold fuel d line :
  frame_lines (S fuel) d line =
    if Index line d <? 0 then Some ([], line)
    else match frame_lines fuel d (slice_from line (Index line d + len d)) with
         | Some (ls, rest) => Some (slice_to line (Index line d) :: ls, rest)
         | None => None
         end.
Proof. reflexivity. Qed.

(** With an empty delimiter the loop body never reaches its [break]. *)
Lemma frame_lines_empty_delimiter fuel line : frame_lines fuel [] line = None.
Proof.
  revert line. induction fuel as [|fuel IH]; intros line; [done|].
  rewrite frame_lines_unfold, Index_empty. simpl.
  unfold slice_from. simpl. by rewrite IH.
Qed.

(** One turn of the body on a hit: the line, and a buffer shorter by
    the line and the delimiter. *)
Lemma Index_hit line d :
  0 ≤ Index line d →
  ∃ i, Index line d = Z.of_nat i ∧ first_at d line i ∧
       slice_to line (Index line d) = take i line ∧
       slice_from line (Index line d + len d) = drop (i + length d) line.
Proof.
  intros Hidx. apply Index_nonneg in Hidx as (i & Hi & ->).
  exists i. split; [done|]. split.
  - split; [by apply index_of_occurs|]. intros j Hj. by eapply index_of_least.
  - unfold slice_to, slice_from, len.
    by rewrite Nat2Z.id, <- Nat2Z.inj_add, Nat2Z.id.
Qed.

Lemma frame_lines_terminates d line fuel :
  d ≠ [] → (length line < fuel)%nat →
  ∃ ls rest, frame_lines fuel d line = Some (ls, rest) ∧
             (length rest + length ls * length d ≤ length line)%nat.
Proof.
  intros Hd. revert line. induction fuel as [|fuel IH]; intros line Hfuel; [lia|].
  rewrite frame_lines_unfold.
  destruct (Z.ltb_spec (Index line d) 0) as [Hneg|Hpos].
  - exists [], line. split; [done | simpl; lia].
  - destruct (Index_hit line d Hpos) as (i & _ & [Hocc _] & _ & ->).
    pose proof (occurs_at_bound _ _ _ Hocc) as Hb.
    assert (length d ≠ 0%nat) as Hd' by (by destruct d).
    destruct (IH (drop (i + length d) line)) as (ls & rest & -> & Hlen).
    { rewrite length_drop. lia. }
    eexists _, _. split; [done|].
    rewrite length_drop in Hlen. simpl. lia.
Qed.

Lemma frame_lines_framed fuel d line ls rest :
  frame_lines fuel d line = Some (ls, rest) → framed d line ls rest.
Proof.
  revert line ls rest. induction fuel as [|fuel IH]; intros line ls rest; [done|].
  rewrite frame_lines_unfold.
  destruct (Z.ltb_spec (Index line d) 0) as [Hneg|Hpos].
  - intros [= <- <-]. apply framed_rest. by apply Index_neg_not_Contains.
  - destruct (Index_hit line d Hpos) as (i & _ & Hfirst & -> & ->).
    destruct (frame_lines fuel d (drop (i + length d) line)) as [[ls' rest']|] eqn:Hrec; [|done].
    intros [= <- <-]. apply IH in Hrec.
    pose proof (occurs_at_split _ _ _ (proj1 Hfirst)) as Hsplit.
    pose proof (occurs_at_bound _ _ _ (proj1 Hfirst)) as Hb.
    rewrite Hsplit at 1. apply framed_line; [|done].
    rewrite <- Hsplit. by rewrite length_take_le by lia.
Qed.

Lemma first_at_Index l d s :
  first_at d (l ++ d ++ s) (length l) → Index (l ++ d ++ s) d = Z.of_nat (length l).
Proof.
  intros [Hocc Hleast]. unfold Index.
  by rewrite (index_of_first _ _ _ Hocc Hleast).
Qed.

Lemma framed_frame_lines d line ls rest fuel :
  d ≠ [] → framed d line ls rest → (length line < fuel)%nat →
  frame_lines fuel d line = Some (ls, rest).
Proof.
  intros Hd Hfr. revert fuel. induction Hfr as [s Hno|l s ls rest Hfirst Hfr IH]; intros fuel Hfuel.
  - destruct fuel as [|fuel]; [lia|]. rewrite frame_lines_unfold.
    apply Index_neg_not_Contains in Hno.
    by destruct (Z.ltb_spec (Index s d) 0); [|lia].
  - destruct fuel as [|fuel]; [lia|]. rewrite frame_lines_unfold.
    rewrite (first_at_Index _ _ _ Hfirst).
    destruct (Z.ltb_spec (Z.of_nat (length l)) 0); [lia|].
    unfold slice_from, slice_to, len.
    rewrite <- Nat2Z.inj_add, !Nat2Z.id.
    rewrite take_app_length.
    replace (drop (length l + length d) (l ++ d ++ s)) with s.
    2:{ rewrite <- drop_drop, drop_app_length. by rewrite drop_app_length. }
    assert (length d ≠ 0%nat) as Hd' by (by destruct d).
    rewrite IH; [done|]. rewrite !length_app in Hfuel. lia.
Qed.

(** The framing of a stream is unique. *)
Lemma framed_unique d s ls rest ls' rest' :
  d ≠ [] → framed d s ls rest → framed d s ls' rest' → ls = ls' ∧ rest = rest'.
Proof.
  intros Hd H1 H2.
  pose proof (framed_frame_lines d s ls rest (S (length s)) Hd H1 (Nat.lt_succ_diag_r _)) as E1.
  pose proof (framed_frame_lines d s ls' rest' (S (length s)) Hd H2 (Nat.lt_succ_diag_r _)) as E2.
  rewrite E1 in E2. by injection E2.
Qed.

(** The stream is the lines, each followed by the delimiter, then [rest]. *)
Lemma framed_concat d s ls rest :
  framed d s ls rest → s = concat ((λ l, l ++ d) <$> ls) ++ rest.
Proof.
  induction 1 as [s Hno|l s ls rest Hfirst Hfr IH]; [done|].
  rewrite fmap_cons, concat_cons, <- !app_assoc. by rewrite <- IH.
Qed.

Lemma framed_line_no_delimiter d s ls rest l :
  d ≠ [] → framed d s ls rest → l ∈ ls → ¬ Contains l d.
Proof.
  intros Hd Hfr. induction Hfr as [s Hno|l0 s ls rest [Hocc Hleast] Hfr IH]; intros Hin.
  - by apply elem_of_nil in Hin.
  - apply elem_of_cons in Hin as [->|Hin]; [|by apply IH].
    intros [j Hj]. pose proof (occurs_at_bound _ _ _ Hj) as Hb.
    assert (length d ≠ 0%nat) as Hd' by (by destruct d).
    apply (Hleast j); [lia|].
    destruct Hj as [Hle [k Hk]]. split; [rewrite length_app; lia|].
    exists (k ++ d ++ s). rewrite drop_app_le by lia. rewrite Hk.
    by rewrite <- app_assoc.
Qed.

Lemma framed_rest_no_delimiter d s ls rest :
  framed d s ls rest → ¬ Contains rest d.
Proof. by induction 1. Qed.

Lemma occurs_at_app_l d s c j :
  occurs_at d (s ++ c) j → (j + length d ≤ length s)%nat → occurs_at d s j.
Proof.
  intros [Hle [k Hk]] Hb. split; [lia|].
  rewrite drop_app_le in Hk by lia.
  assert (take (length d) (drop j s ++ c) = d) as Ht
    by (by rewrite Hk, take_app_length).
  rewrite take_app_le in Ht by (rewrite length_drop; lia).
  exists (drop (length d) (drop j s)).
  by rewrite <- Ht at 1; rewrite take_drop.
Qed.

Lemma occurs_at_app_r d s c j :
  occurs_at d s j → occurs_at d (s ++ c) j.
Proof.
  intros [Hle [k Hk]]. split; [rewrite length_app; lia|].
  exists (k ++ c). rewrite drop_app_le by lia. by rewrite Hk, <- app_assoc.
Qed.

(** Framing does not depend on where the stream is cut: what the framer
    leaves of [s] and then finds in [rest ++ c] is what it finds in
    [s ++ c]. *)
Lemma framed_app d s c ls rest ls' rest' :
  framed d s ls rest → framed d (rest ++ c) ls' rest' →
  framed d (s ++ c) (ls ++ ls') rest'.
Proof.
  intros Hfr Hc. induction Hfr as [s Hno|l s ls rest [Hocc Hleast] Hfr IH]; [done|].
  specialize (IH Hc). simpl. rewrite <- !app_assoc.
  apply framed_line; [|done]. split.
  - replace (l ++ d ++ s ++ c) with ((l ++ d ++ s) ++ c) by (by rewrite <- !app_assoc).
    by apply occurs_at_app_r.
  - intros j Hj Hoc. apply (Hleast j Hj).
    replace (l ++ d ++ s ++ c) with ((l ++ d ++ s) ++ c) in Hoc by (by rewrite <- !app_assoc).
    apply (occurs_at_app_l _ _ _ _ Hoc). rewrite !length_app. lia.
Qed.
End framing.

Section occurrences_facts.
Implicit Types d s l : bytes.

Lemma filter_none (P : nat → Prop) `{∀ x, Decision (P x)} (l : list nat) :
  (∀ x, x ∈ l → ¬ P x) → filter P l = [].
Proof.
  induction l as [|x l IH]; intros Hno; [done|].
  rewrite filter_cons_False by (apply Hno; left).
  apply IH. intros y Hy. apply Hno. by right.
Qed.

Lemma filter_seq_shift (P Q : nat → Prop)
    `{∀ x, Decision (P x)} `{∀ x, Decision (Q x)} (a b n : nat) :
  (∀ j, P (a + j)%nat ↔ Q j) →
  filter P (seq (a + b) n) = Nat.add a <$> filter Q (seq b n).
Proof.
  intros HPQ. revert b. induction n as [|n IH]; intros b; [done|].
  cbn [seq]. replace (S (a + b)) with (a + S b)%nat by lia.
  destruct (decide (Q b)) as [Hq|Hq].
  - rewrite (filter_cons_True Q) by done.
    rewrite filter_cons_True by (by apply HPQ).
    rewrite fmap_cons. f_equal. apply IH.
  - rewrite (filter_cons_False Q) by done.
    rewrite filter_cons_False by (by rewrite HPQ).
    apply IH.
Qed.

Lemma delimiter_offsets_shift d a start ls :
  Nat.add a <$> delimiter_offsets d start ls = delimiter_offsets d (a + start) ls.
Proof.
  revert start. induction ls as [|l ls IH]; intros start; [done|].
  cbn [delimiter_offsets]. rewrite fmap_cons, IH. f_equal; [lia | f_equal; lia].
Qed.

(** Behind a delimiter at [length l], occurrences are those of the tail. *)
Lemma occurs_at_behind d l s j :
  occurs_at d (l ++ d ++ s) (length l + length d + j) ↔ occurs_at d s j.
Proof.
  unfold occurs_at. rewrite !length_app.
  replace (drop (length l + length d + j) (l ++ d ++ s)) with (drop j s).
  - split; intros [? ?]; split; (done || lia).
  - rewrite <- Nat.add_assoc, <- drop_drop, drop_app_length.
    by rewrite <- drop_drop, drop_app_length.
Qed.

(** An occurrence starting inside a delimiter makes a border of it. *)
Lemma occurs_at_inside d l s t :
  unbordered d → (0 < t < length d)%nat →
  ¬ occurs_at d (l ++ d ++ s) (length l + t).
Proof.
  intros Hub Ht [_ [k Hk]]. apply (Hub t Ht).
  rewrite <- drop_drop, drop_app_length in Hk.
  rewrite drop_app_le in Hk by lia.
  assert (take (length d - t) (drop t d ++ s) = take (length d - t) (d ++ k)) as Heq
    by (by rewrite Hk).
  rewrite take_app_le in Heq by (rewrite length_drop; lia).
  rewrite take_ge in Heq by (rewrite length_drop; lia).
  by rewrite take_app_le in Heq by lia.
Qed.

Lemma framed_occurrences d s ls rest :
  d ≠ [] → unbordered d → framed d s ls rest →
  occurrences d s = delimiter_offsets d 0 ls.
Proof.
  intros Hd Hub. unfold occurrences.
  induction 1 as [s Hno|l s ls rest [Hocc Hleast] Hfr IH].
  - apply filter_none. intros j _ Hj. apply Hno. by exists j.
  - assert (length d ≠ 0%nat) as Hd' by (by destruct d).
    rewrite !length_app.
    replace (S (length l + (length d + length s)))
      with (length l + (length d + S (length s)))%nat by lia.
    remember (S (length s)) as n eqn:Hn.
    rewrite !seq_app, !filter_app, !Nat.add_0_l.
    rewrite (filter_none _ (seq 0 (length l))).
    2:{ intros j Hj%elem_of_seq. apply Hleast. lia. }
    cbn [delimiter_offsets]. rewrite !Nat.add_0_l.
    destruct (length d) as [|m] eqn:Hm; [done|]. cbn [seq].
    rewrite filter_cons_True by done.
    rewrite (filter_none _ (seq (S (length l)) m)).
    2:{ intros j Hj%elem_of_seq.
        replace j with (length l + (j - length l))%nat by lia.
        apply occurs_at_inside; [done|lia]. }
    cbn [app]. f_equal.
    replace (length l + S m)%nat with (length l + S m + 0)%nat at 1 by lia.
    rewrite (filter_seq_shift _ (occurs_at d s)).
    2:{ intros j. rewrite <- Hm. apply occurs_at_behind. }
    subst n. rewrite IH, delimiter_offsets_shift. f_equal. lia.
Qed.

Lemma delimiter_offsets_length d start ls :
  length (delimiter_offsets d start ls) = length ls.
Proof.
  revert start. induction ls as [|l ls IH]; intros start; [done|].
  cbn [delimiter_offsets length]. by rewrite IH.
Qed.

Lemma one_byte_unbordered (c : byte) : unbordered [c].
Proof. intros t Ht. simpl in Ht. lia. Qed.

Lemma CRLF_unbordered : unbordered CRLF.
Proof.
  intros t Ht. simpl in Ht. assert (t = 1%nat) as -> by lia. discriminate.
Qed.
End occurrences_facts.

(** ** The read loops *)

Section trace_facts.
Lemma onLine_calls_app tr1 tr2 :
  onLine_calls (tr1 ++ tr2) = onLine_calls tr1 ++ onLine_calls tr2.
Proof. apply omap_app. Qed.

Lemma onError_calls_app tr1 tr2 :
  onError_calls (tr1 ++ tr2) = onError_calls tr1 ++ onError_calls tr2.
Proof. apply omap_app. Qed.

Lemma onLine_calls_lines (ls : list bytes) : onLine_calls (CallOnLine <$> ls) = ls.
Proof. induction ls as [|l ls IH]; [done|]. simpl. f_equal. exact IH. Qed.

Lemma onError_calls_lines (ls : list bytes) : onError_calls (CallOnLine <$> ls) = [].
Proof. by induction ls. Qed.

Lemma file_Read_calls `{UnixConsts} f rd acts r :
  file_Read f rd = (acts, r) → onLine_calls acts = [] ∧ onError_calls acts = [].
Proof.
  unfold file_Read. destruct f as [f|]; [destruct (file_closed f)|]; by intros [= <- <-].
Qed.

Lemma file_Read_open `{UnixConsts} s rd :
  reader_open s → ∃ n, file_Read (file s) rd = ([SysRead n 4096], rd).
Proof.
  intros (_ & f & Hf & Hc). unfold file_Read. rewrite Hf, Hc. by eexists.
Qed.
End trace_facts.

Section loops.
Context `{UC : UnixConsts}.
Implicit Types s : SerialReader.
Implicit Types line d rest : bytes.

Lemma pollin_POLLIN : pollin POLLIN = true.
Proof.
  unfold pollin. rewrite Z.land_diag.
  pose proof POLLIN_nonzero. by destruct (Z.eqb_spec POLLIN 0).
Qed.

Lemma pollin_0 : pollin 0 = false.
Proof. unfold pollin. by rewrite Z.land_0_l. Qed.

(** The loop invariant over a run of device reads: the buffer holds no
    delimiter whenever the loop is back at [unix.Poll]. *)
Lemma ReadLinesLoop_from_chunks s line chunks fuel :
  reader_open s → Delimiter (config s) ≠ [] →
  ¬ Contains line (Delimiter (config s)) →
  (length line + length (concat chunks) < fuel)%nat →
  ∃ tr ls rest,
    ReadLinesLoop_from fuel s line (chunk <$> chunks) = Some (tr, Waiting rest) ∧
    onLine_calls tr = ls ∧ onError_calls tr = [] ∧
    framed (Delimiter (config s)) (line ++ concat chunks) ls rest.
Proof.
  intros Hopen Hd. revert line.
  induction chunks as [|c cs IH]; intros line Hno Hfuel.
  - exists [SysPoll [fd s; pipeR s]], [], line. repeat split; try done.
    simpl. rewrite app_nil_r. by apply framed_rest.
  - simpl in Hfuel. rewrite length_app in Hfuel.
    destruct (frame_lines_terminates (Delimiter (config s)) (line ++ c) fuel Hd)
      as (ls1 & rest1 & Hfl & Hlen); [rewrite length_app; lia|].
    pose proof (frame_lines_framed _ _ _ _ _ Hfl) as Hfr1.
    destruct (IH rest1) as (tr & ls2 & rest & Hloop & Hls & Herr & Hfr2).
    { by eapply framed_rest_no_delimiter. }
    { rewrite length_app in Hlen. lia. }
    destruct (file_Read_open s (ReadOk c) Hopen) as [n Hrd].
    destruct Hopen as [Hdone _].
    exists (SysPoll [fd s; pipeR s] :: [SysRead n 4096] ++ (CallOnLine <$> ls1) ++ tr),
           (ls1 ++ ls2), rest.
    split; [|split; [|split]].
    + rewrite fmap_cons. unfold chunk at 1. cbn [ReadLinesLoop_from].
      rewrite Hdone, pollin_0, pollin_POLLIN, Hrd, Hfl. simpl.
      by rewrite Hloop.
    + cbn. rewrite onLine_calls_app, onLine_calls_lines. by rewrite Hls.
    + cbn. rewrite onError_calls_app, onError_calls_lines. by rewrite Herr.
    + simpl. rewrite app_assoc. by eapply framed_app.
Qed.
End loops.

(** ** The scenarios of the test-suite, run on the model *)

(** Chunk "hello\n", delimiter "\n": [ReadLine] returns "hello". *)
Example scenario_ReadLine_hello :
  ReadLine (reader_of LF) [chunk (B "hello" ++ LF)]
    = ([SysPoll [3; 4]; SysRead 3 4096], Return (B "hello", None)).
Proof. by vm_compute. Qed.

(** Chunks "hel" then "lo\n": one line, "hello", once both are read. *)
Example scenario_line_across_chunks :
  ReadLinesLoop 8 (reader_of LF) [chunk (B "hel"); chunk (B "lo" ++ LF)]
    = Some ([SysPoll [3; 4]; SysRead 3 4096;
             SysPoll [3; 4]; SysRead 3 4096; CallOnLine (B "hello");
             SysPoll [3; 4]], Waiting []).
Proof. by vm_compute. Qed.

(** Single chunk "a\nb\n": two calls, "a" then "b", no residue. *)
Example scenario_two_lines_one_chunk :
  ReadLinesLoop 8 (reader_of LF) [chunk (B "a" ++ LF ++ B "b" ++ LF)]
    = Some ([SysPoll [3; 4]; SysRead 3 4096; CallOnLine (B "a"); CallOnLine (B "b");
             SysPoll [3; 4]], Waiting []).
Proof. by vm_compute. Qed.

(** [WriteLine("pong", "\n")], the kernel taking the five bytes at once:
    one write of "pong\n" on the device. *)
Example scenario_WriteLine_pong :
  WriteLine [WriteOk 5] (reader_of LF) (B "pong") LF world_open
    = (WReturn None,
       {| open_fds := open_fds world_open; io_errors := io_errors world_open;
          trace := [SysWrite 3 (B "pong" ++ LF)] |}).
Proof. by vm_compute. Qed.

(** The first write is interrupted and repeated, the second takes two
    bytes, and the rest is offered in a third. *)
Example scenario_WriteLine_short_write :
  WriteLine write_interrupted_short (reader_of LF) (B "pong") LF world_open
    = (WReturn None,
       {| open_fds := open_fds world_open; io_errors := io_errors world_open;
          trace := [SysWrite 3 (B "pong" ++ LF); SysWrite 3 (B "pong" ++ LF);
                    SysWrite 3 (B "ng" ++ LF)] |}).
Proof. by vm_compute. Qed.

(** A write fails after two bytes went out: the error comes back as the
    path error of the device. *)
Example scenario_WriteLine_error :
  WriteLine [WriteOk 2; WriteErr 5] (reader_of LF) (B "pong") LF world_open
    = (WReturn (Some (PathError "write" "/dev/pts/1" EIO)),
       {| open_fds := open_fds world_open; io_errors := io_errors world_open;
          trace := [SysWrite 3 (B "pong" ++ LF); SysWrite 3 (B "ng" ++ LF)] |}).
Proof. by vm_compute. Qed.

(** A failing device read goes to [onError], once, and the loop returns. *)
Example scenario_error_propagation :
  ReadLinesLoop 8 (reader_of LF) [EvPoll false POLLIN 0 (ReadErr EIO); chunk (B "x" ++ LF)]
    = Some ([SysPoll [3; 4]; SysRead 3 4096; CallOnError EIO], Return ()).
Proof. by vm_compute. Qed.

(** [Close] from another goroutine while the loop waits: the loop sees
    [done] closed and returns, calling neither callback. *)
Example scenario_killability :
  ReadLinesLoop 8 (reader_of LF) [chunk (B "test data" ++ LF); EvPoll true 0 POLLIN (ReadOk [])]
    = Some ([SysPoll [3; 4]; SysRead 3 4096; CallOnLine (B "test data");
             SysPoll [3; 4]], Return ()).
Proof. by vm_compute. Qed.

(** ** Termination of the framing loop *)

(** C10.  For a non-empty delimiter the inner extraction loop of
    [ReadLinesLoop] terminates on every buffer: any fuel above the buffer
    length is enough, and each turn that finds a delimiter leaves a buffer
    shorter by at least the delimiter's length.  Non-emptiness is needed:
    with the empty delimiter the loop is still running at every fuel. *)
Theorem frame_lines_terminates_iff_delimiter_nonempty (d line : bytes) :
  (d ≠ [] →
     (∀ fuel, (length line < fuel)%nat →
        ∃ ls rest, frame_lines fuel d line = Some (ls, rest) ∧
                   (length rest + length ls * length d ≤ length line)%nat) ∧
     (0 ≤ Index line d →
        (length (slice_from line (Index line d + len d)) + length d ≤ length line)%nat ∧
        (length (slice_from line (Index line d + len d)) < length line)%nat)) ∧
  (d = [] → ∀ fuel, frame_lines fuel d line = None).
Proof.
  split.
  - intros Hd. split.
    + intros fuel Hfuel. by apply frame_lines_terminates.
    + intros Hidx. destruct (Index_hit line d Hidx) as (i & _ & [Hocc _] & _ & ->).
      pose proof (occurs_at_bound _ _ _ Hocc).
      assert (length d ≠ 0%nat) by (by destruct d).
      rewrite length_drop. lia.
  - intros -> fuel. apply frame_lines_empty_delimiter.
Qed.

Lemma frame_lines_terminates_iff_delimiter_nonempty_witness :
  (∃ ls rest, frame_lines 4 LF (B "a" ++ LF ++ B "b") = Some (ls, rest) ∧
              (length rest + length ls * length LF ≤ length (B "a" ++ LF ++ B "b"))%nat) ∧
  frame_lines 4 [] (B "a" ++ LF ++ B "b") = None.
Proof.
  split.
  - apply (proj1 (frame_lines_terminates_iff_delimiter_nonempty LF (B "a" ++ LF ++ B "b"))).
    + discriminate.
    + simpl. lia.
  - apply (proj2 (frame_lines_terminates_iff_delimiter_nonempty [] (B "a" ++ LF ++ B "b"))).
    reflexivity.
Defined.

(** ** Continuous reading frames the stream *)

(** C1, counterexample.  The stream "aaa" holds two occurrences of the
    delimiter "aa", at offsets 0 and 1, and [ReadLinesLoop] calls [onLine]
    once: after the hit at 0 the search resumes behind that delimiter. *)
Lemma one_line_per_occurrence_overlap_counterexample :
  occurrences (B "aa") (B "aaa") = [0%nat; 1%nat] ∧
  ReadLinesLoop 4 (reader_of (B "aa")) [chunk (B "aaa")]
    = Some ([SysPoll [3; 4]; SysRead 3 4096; CallOnLine []; SysPoll [3; 4]],
            Waiting (B "a")) ∧
  ¬ one_line_per_occurrence (reader_of (B "aa")) [B "aaa"].
Proof.
  split; [by vm_compute|]. split; [by vm_compute|].
  intros Hlit. destruct (Hlit 4%nat) as (tr & out & Hrun & Hlen).
  - vm_compute. lia.
  - vm_compute in Hrun. injection Hrun as <- <-. vm_compute in Hlen. discriminate.
Qed.

(** C1, amended.  Fed any sequence of chunks, a reader with a non-empty
    delimiter calls [onLine] once per delimiter found scanning the
    concatenation left to right, each search resuming right behind the
    previous delimiter; the i-th call carries the bytes between the
    (i-1)-th and the i-th of these delimiters, [onError] is not called,
    and the bytes behind the last delimiter stay in the buffer.  The lines
    are a function of the concatenation alone, not of its cutting.  For a
    delimiter that cannot overlap itself these delimiters are all the
    occurrences, each at the end of its line. *)
Theorem ReadLinesLoop_frames_stream `{UnixConsts} (s : SerialReader) (chunks : list bytes) :
  reader_open s → Delimiter (config s) ≠ [] →
  ∃ ls rest,
    framed (Delimiter (config s)) (concat chunks) ls rest ∧
    (∀ ls' rest', framed (Delimiter (config s)) (concat chunks) ls' rest' →
                  ls' = ls ∧ rest' = rest) ∧
    (unbordered (Delimiter (config s)) →
       occurrences (Delimiter (config s)) (concat chunks)
         = delimiter_offsets (Delimiter (config s)) 0 ls ∧
       length (occurrences (Delimiter (config s)) (concat chunks)) = length ls) ∧
    ∀ fuel, (length (concat chunks) < fuel)%nat →
      ∃ tr, ReadLinesLoop fuel s (chunk <$> chunks) = Some (tr, Waiting rest) ∧
            onLine_calls tr = ls ∧ onError_calls tr = [].
Proof.
  intros Hopen Hd.
  assert (¬ Contains [] (Delimiter (config s))) as Hnil.
  { intros [i Hi]. apply occurs_at_bound in Hi. simpl in Hi.
    destruct (Delimiter (config s)); [done | simpl in Hi; lia]. }
  destruct (ReadLinesLoop_from_chunks s [] chunks (S (length (concat chunks))) Hopen Hd Hnil)
    as (tr0 & ls & rest & _ & _ & _ & Hfr); [simpl; lia|].
  exists ls, rest. split; [done|]. split; [|split].
  - intros ls' rest' Hfr'. by eapply framed_unique.
  - intros Hub.
    pose proof (framed_occurrences _ (concat chunks) _ _ Hd Hub Hfr) as ->.
    by rewrite delimiter_offsets_length.
  - intros fuel Hfuel.
    destruct (ReadLinesLoop_from_chunks s [] chunks fuel Hopen Hd Hnil)
      as (tr & ls' & rest' & Hrun & Hls & Herr & Hfr'); [simpl; lia|].
    destruct (framed_unique _ _ _ _ _ _ Hd Hfr Hfr') as [<- <-].
    by exists tr.
Qed.

Lemma ReadLinesLoop_frames_stream_witness :
  ∃ ls rest,
    framed LF (concat [B "hel"; B "lo" ++ LF ++ B "a" ++ LF ++ B "b"]) ls rest ∧
    (∀ ls' rest',
       framed LF (concat [B "hel"; B "lo" ++ LF ++ B "a" ++ LF ++ B "b"]) ls' rest' →
       ls' = ls ∧ rest' = rest) ∧
    (unbordered LF →
       occurrences LF (concat [B "hel"; B "lo" ++ LF ++ B "a" ++ LF ++ B "b"])
         = delimiter_offsets LF 0 ls ∧
       length (occurrences LF (concat [B "hel"; B "lo" ++ LF ++ B "a" ++ LF ++ B "b"]))
         = length ls) ∧
    ∀ fuel, (length (concat [B "hel"; B "lo" ++ LF ++ B "a" ++ LF ++ B "b"]) < fuel)%nat →
      ∃ tr, ReadLinesLoop fuel (reader_of LF)
              (chunk <$> [B "hel"; B "lo" ++ LF ++ B "a" ++ LF ++ B "b"])
            = Some (tr, Waiting rest) ∧
            onLine_calls tr = ls ∧ onError_calls tr = [].
Proof.
  apply (ReadLinesLoop_frames_stream (reader_of LF)
           [B "hel"; B "lo" ++ LF ++ B "a" ++ LF ++ B "b"]).
  - split; [reflexivity | eexists; split; reflexivity].
  - discriminate.
Defined.

(** ** Delivered lines hold no delimiter *)

Section delivered_lines.
Context `{UC : UnixConsts}.
Implicit Types s : SerialReader.
Implicit Types line d : bytes.

Lemma empty_line_clean d : d ≠ [] → ¬ Contains [] d.
Proof.
  intros Hd [i Hi]. apply occurs_at_bound in Hi.
  destruct d; [done | simpl in Hi; lia].
Qed.

(** The bytes before the first delimiter hold no delimiter. *)
Lemma first_at_prefix_clean d line i :
  d ≠ [] → first_at d line i → ¬ Contains (take i line) d.
Proof.
  intros Hd [Hocc Hleast] [j Hj].
  pose proof (occurs_at_bound _ _ _ Hj) as Hb.
  pose proof (occurs_at_bound _ _ _ Hocc) as Hb'.
  assert (length d ≠ 0%nat) by (by destruct d).
  rewrite length_take_le in Hb by lia.
  apply (Hleast j); [lia|].
  rewrite <- (take_drop i line). by apply occurs_at_app_r.
Qed.

Lemma ReadLine_from_clean s line evs tr l err :
  Delimiter (config s) ≠ [] →
  ReadLine_from s line evs = (tr, Return (l, err)) →
  ¬ Contains l (Delimiter (config s)).
Proof.
  intros Hd. revert line tr.
  induction evs as [|ev evs IH]; intros line tr; [done|].
  destruct ev as [e|closed revDev revPipe rd]; cbn [ReadLine_from].
  - intros [= <- <- <-]. by apply empty_line_clean.
  - destruct (done s || closed); [intros [= <- <- <-]; by apply empty_line_clean|].
    destruct (pollin revPipe); [intros [= <- <- <-]; by apply empty_line_clean|].
    destruct (pollin revDev).
    + destruct (file_Read (file s) rd) as [acts [data|e]].
      * destruct (Z.leb_spec 0 (Index (line ++ data) (Delimiter (config s)))) as [Hhit|Hmiss].
        -- intros [= <- <- <-].
           destruct (Index_hit _ _ Hhit) as (i & _ & Hfirst & -> & _).
           by apply first_at_prefix_clean.
        -- destruct (ReadLine_from s (line ++ data) evs) as [tr' out] eqn:Hrec.
           intros [= <- ->]. by eapply IH.
      * intros [= <- <- <-]. by apply empty_line_clean.
    + destruct (ReadLine_from s line evs) as [tr' out] eqn:Hrec.
      intros [= <- ->]. by eapply IH.
Qed.

Lemma ReadLinesLoop_from_clean fuel s line evs tr out l :
  Delimiter (config s) ≠ [] →
  ReadLinesLoop_from fuel s line evs = Some (tr, out) →
  l ∈ onLine_calls tr →
  ¬ Contains l (Delimiter (config s)).
Proof.
  intros Hd. revert line tr.
  induction evs as [|ev evs IH]; intros line tr.
  { intros [= <- <-] Hin. by apply elem_of_nil in Hin. }
  destruct ev as [e|closed revDev revPipe rd]; cbn [ReadLinesLoop_from].
  { intros [= <- <-] Hin. by apply elem_of_nil in Hin. }
  destruct (done s || closed).
  { intros [= <- <-] Hin. by apply elem_of_nil in Hin. }
  destruct (pollin revPipe).
  { intros [= <- <-] Hin. by apply elem_of_nil in Hin. }
  destruct (pollin revDev).
  - destruct (file_Read (file s) rd) as [acts [data|e]] eqn:Hrd;
      destruct (file_Read_calls _ _ _ _ Hrd) as [Hacts _].
    + destruct (frame_lines fuel (Delimiter (config s)) (line ++ data))
        as [[ls rest]|] eqn:Hfl; [|done].
      destruct (ReadLinesLoop_from fuel s rest evs) as [[tr' out']|] eqn:Hrec; [|done].
      intros [= <- <-].
      change (SysPoll [fd s; pipeR s] :: acts ++ (CallOnLine <$> ls) ++ tr')
        with ([SysPoll [fd s; pipeR s]] ++ acts ++ (CallOnLine <$> ls) ++ tr').
      rewrite !onLine_calls_app, Hacts, onLine_calls_lines. simpl.
      intros [Hin|Hin]%elem_of_app.
      * eapply framed_line_no_delimiter; [done| |done].
        by eapply frame_lines_framed.
      * by eapply IH.
    + intros [= <- <-].
      change (SysPoll [fd s; pipeR s] :: acts ++ [CallOnError e])
        with ([SysPoll [fd s; pipeR s]] ++ acts ++ [CallOnError e]).
      rewrite !onLine_calls_app, Hacts. simpl. intros Hin. by apply elem_of_nil in Hin.
  - destruct (ReadLinesLoop_from fuel s line evs) as [[tr' out']|] eqn:Hrec; [|done].
    intros [= <- <-]. simpl. by eapply IH.
Qed.
End delivered_lines.

(** C2.  For every non-empty configured delimiter and every script of
    events: the line [ReadLine] returns and every line [ReadLinesLoop]
    hands to [onLine] contain no occurrence of the delimiter, and each
    run of the framing loop takes the delimiters out of the buffer, which
    read (line, delimiter)* followed by what is left in it.  The failing
    input is the empty delimiter, which [Config] documents as standing
    for "\r\n" and [Open] keeps as it is: then, on the first bytes an
    open reader reads, [ReadLine] returns the empty line, in which the
    configured delimiter occurs, and [ReadLinesLoop] does not leave its
    framing loop. *)
Theorem delivered_lines_exclude_delimiter `{UnixConsts} (s : SerialReader) :
  (Delimiter (config s) ≠ [] →
   (∀ evs tr l err,
      ReadLine s evs = (tr, Return (l, err)) →
      ¬ Contains l (Delimiter (config s)) ∧ Index l (Delimiter (config s)) = -1) ∧
   (∀ fuel evs tr out l,
      ReadLinesLoop fuel s evs = Some (tr, out) → l ∈ onLine_calls tr →
      ¬ Contains l (Delimiter (config s)) ∧ Index l (Delimiter (config s)) = -1) ∧
   (∀ fuel line ls rest,
      frame_lines fuel (Delimiter (config s)) line = Some (ls, rest) →
      line = concat ((λ l, l ++ Delimiter (config s)) <$> ls) ++ rest ∧
      ¬ Contains rest (Delimiter (config s)))) ∧
  (Delimiter (config s) = [] → reader_open s →
   ∀ data evs,
     (∃ tr, ReadLine s (chunk data :: evs) = (tr, Return ([], None))) ∧
     Contains [] (Delimiter (config s)) ∧
     (∀ fuel, ReadLinesLoop fuel s (chunk data :: evs) = None)).
Proof.
  split.
  - intros Hd.
    assert (∀ l, ¬ Contains l (Delimiter (config s)) → Index l (Delimiter (config s)) = -1)
      as Hidx.
    { intros l Hl. apply Index_neg_not_Contains, Index_neg in Hl. unfold Index. by rewrite Hl. }
    split; [|split].
    + intros evs tr l err Hrun.
      assert (¬ Contains l (Delimiter (config s))) by (by eapply ReadLine_from_clean).
      auto.
    + intros fuel evs tr out l Hrun Hin.
      assert (¬ Contains l (Delimiter (config s))) by (by eapply ReadLinesLoop_from_clean).
      auto.
    + intros fuel line ls rest Hfl. apply frame_lines_framed in Hfl. split.
      * by apply framed_concat.
      * by eapply framed_rest_no_delimiter.
  - intros Hd Hopen data evs.
    destruct (file_Read_open s (ReadOk data) Hopen) as [n Hrd].
    destruct Hopen as [Hdone _].
    split; [|split].
    + unfold ReadLine, chunk. cbn [ReadLine_from].
      rewrite Hdone, pollin_0, pollin_POLLIN, Hrd, Hd, Index_empty. simpl.
      by eexists.
    + rewrite Hd. exists 0%nat. split; [done|]. by exists [].
    + intros fuel. unfold ReadLinesLoop, chunk. cbn [ReadLinesLoop_from].
      rewrite Hdone, pollin_0, pollin_POLLIN, Hrd, Hd. simpl.
      by rewrite frame_lines_empty_delimiter.
Qed.

Lemma delivered_lines_exclude_delimiter_witness :
  ((∀ evs tr l err,
      ReadLine (reader_of CRLF) evs = (tr, Return (l, err)) →
      ¬ Contains l CRLF ∧ Index l CRLF = -1) ∧
   (∀ fuel evs tr out l,
      ReadLinesLoop fuel (reader_of CRLF) evs = Some (tr, out) → l ∈ onLine_calls tr →
      ¬ Contains l CRLF ∧ Index l CRLF = -1) ∧
   (∀ fuel line ls rest,
      frame_lines fuel CRLF line = Some (ls, rest) →
      line = concat ((λ l, l ++ CRLF) <$> ls) ++ rest ∧ ¬ Contains rest CRLF)) ∧
  ((∃ tr, ReadLine (reader_of []) [chunk (B "a")] = (tr, Return ([], None))) ∧
   Contains [] (Delimiter (config (reader_of []))) ∧
   (∀ fuel, ReadLinesLoop fuel (reader_of []) [chunk (B "a")] = None)).
Proof.
  split.
  - apply (delivered_lines_exclude_delimiter (reader_of CRLF)). discriminate.
  - apply (delivered_lines_exclude_delimiter (reader_of [])).
    + reflexivity.
    + split; [reflexivity|]. eexists. split; reflexivity.
Defined.

(** ** The wakeup path of the read loops *)

(** C7, counterexample.  On the turn in which the self-pipe is readable
    [ReadLine] returns the closed-state error, not a nil error; and when
    [done] is already closed in that turn, as it is once [Close] has
    written the wakeup byte, the loops return without draining the pipe. *)
Lemma ReadLine_wakeup_returns_error_counterexample :
  ReadLine (reader_of LF) [wakeup]
    = ([SysPoll [3; 4]; SysRead 4 1], Return ([], Some ErrReaderClosed)) ∧
  (¬ ∃ tr l, ReadLine (reader_of LF) [wakeup] = (tr, Return (l, None))) ∧
  ReadLine (reader_of LF) [EvPoll true 0 POLLIN (ReadOk [])]
    = ([SysPoll [3; 4]], Return ([], Some ErrReaderClosed)) ∧
  ReadLinesLoop 4 (reader_of LF) [EvPoll true 0 POLLIN (ReadOk [])]
    = Some ([SysPoll [3; 4]], Return ()).
Proof.
  split; [by vm_compute|]. split; [|by vm_compute].
  intros (tr & l & Hrun). vm_compute in Hrun. discriminate.
Qed.

(** C7, amended.  In a turn where the self-pipe is readable, whatever the
    buffer holds and whether or not the device is readable too, both
    loops return without reading the device: [ReadLinesLoop] calls
    neither callback, and [ReadLine] returns the empty line with the
    error "serialreader closed".  One byte is read from the pipe only
    when [done] is not seen closed in that turn; otherwise the loops
    return at the check of [done], before the pipe is looked at. *)
Theorem wakeup_ends_read_loops `{UnixConsts} (s : SerialReader) (line : bytes)
    (closed : bool) (revDev revPipe : Z) (rd : ReadResult) (evs : list Event) (fuel : nat) :
  pollin revPipe = true →
  let tr := SysPoll [fd s; pipeR s]
            :: (if done s || closed then [] else [SysRead (pipeR s) 1]) in
  ReadLinesLoop_from fuel s line (EvPoll closed revDev revPipe rd :: evs)
    = Some (tr, Return ()) ∧
  onLine_calls tr = [] ∧
  onError_calls tr = [] ∧
  ReadLine_from s line (EvPoll closed revDev revPipe rd :: evs)
    = (tr, Return ([], Some ErrReaderClosed)).
Proof.
  intros Hpipe tr. subst tr. cbn [ReadLinesLoop_from ReadLine_from].
  rewrite Hpipe. by destruct (done s || closed).
Qed.

Lemma wakeup_ends_read_loops_witness :
  ReadLinesLoop_from 8 (reader_of LF) (B "par")
      (EvPoll false POLLIN POLLIN (ReadOk (B "tial")) :: [])
    = Some ([SysPoll [3; 4]; SysRead 4 1], Return ()) ∧
  onLine_calls [SysPoll [3; 4]; SysRead 4 1] = [] ∧
  onError_calls [SysPoll [3; 4]; SysRead 4 1] = [] ∧
  ReadLine_from (reader_of LF) (B "par")
      (EvPoll false POLLIN POLLIN (ReadOk (B "tial")) :: [])
    = ([SysPoll [3; 4]; SysRead 4 1], Return ([], Some ErrReaderClosed)).
Proof.
  apply (wakeup_ends_read_loops (reader_of LF) (B "par") false POLLIN POLLIN
           (ReadOk (B "tial")) [] 8).
  reflexivity.
Defined.

(** ** The baud-rate table *)

(** C8.  [baudToUnix] is defined on every integer: the six supported
    rates map to their constants and any other value maps to
    [B115200]. *)
Theorem baudToUnix_table `{UnixConsts} (baud : Z) :
  baudToUnix 9600 = B9600 ∧
  baudToUnix 19200 = B19200 ∧
  baudToUnix 38400 = B38400 ∧
  baudToUnix 57600 = B57600 ∧
  baudToUnix 115200 = B115200 ∧
  baudToUnix 230400 = B230400 ∧
  (baud ∉ [9600; 19200; 38400; 57600; 115200; 230400] → baudToUnix baud = B115200).
Proof.
  repeat (split; [reflexivity|]).
  intros Hnot. unfold baudToUnix.
  repeat match goal with
         | |- context [?b =? ?c] =>
             destruct (Z.eqb_spec b c) as [->|_]; [exfalso; apply Hnot; set_solver|]
         end.
  reflexivity.
Qed.

Lemma baudToUnix_table_witness :
  baudToUnix 9600 = 0xd ∧
  baudToUnix 19200 = 0xe ∧
  baudToUnix 38400 = 0xf ∧
  baudToUnix 57600 = 0x1001 ∧
  baudToUnix 115200 = 0x1002 ∧
  baudToUnix 230400 = 0x1003 ∧
  baudToUnix 4800 = 0x1002 ∧ baudToUnix (-1) = 0x1002 ∧ baudToUnix 0 = 0x1002.
Proof.
  pose proof (baudToUnix_table (H := linux_amd64) 4800) as (H1 & H2 & H3 & H4 & H5 & H6 & H7).
  pose proof (baudToUnix_table (H := linux_amd64) (-1)) as (_ & _ & _ & _ & _ & _ & H8).
  pose proof (baudToUnix_table (H := linux_amd64) 0) as (_ & _ & _ & _ & _ & _ & H9).
  refine (conj H1 (conj H2 (conj H3 (conj H4 (conj H5 (conj H6
            (conj (H7 _) (conj (H8 _) (H9 _)))))))));
    (eapply bool_decide_unpack; vm_compute; exact I).
Defined.

(** ** [Open] *)

Section open_facts.
Context `{UC : UnixConsts}.

(** On success the reader carries the configuration as it was passed. *)
Lemma Open_success_reader k cfg w s e w' :
  Open k cfg w = ((Some s, e), w') →
  config s = cfg ∧ done s = false ∧ closeOnce s = false ∧
  file s = NewFile (fd s) (Device cfg) ∧ ans_open k = inl (fd s).
Proof.
  unfold Open, mbind, M_bind, mret, M_ret, emit, alloc_fd. simpl.
  destruct (ans_open k) as [n|?]; [|done]. simpl.
  destruct (ans_tcgets k) as [t|?]; [|done]. simpl.
  destruct (ans_tcsets k) as [?|]; [done|]. simpl.
  destruct (ans_pipe k) as [[r p]|?]; [|done]. simpl.
  by intros [= <- _ _].
Qed.

(** After a successful [Open] the device descriptor is in the table. *)
Lemma Open_device_descriptor_open k cfg w s e w' :
  Open k cfg w = ((Some s, e), w') → fd s ∈ open_fds w'.
Proof.
  unfold Open, mbind, M_bind, mret, M_ret, emit, alloc_fd. simpl.
  destruct (ans_open k) as [n|?]; [|done]. simpl.
  destruct (ans_tcgets k) as [t|?]; [|done]. simpl.
  destruct (ans_tcsets k) as [?|]; [done|]. simpl.
  destruct (ans_pipe k) as [[r p]|?]; [|done]. simpl.
  intros [= <- _ <-]. simpl.
  apply elem_of_union_r, elem_of_union_r, elem_of_union_l. by apply elem_of_singleton.
Qed.

(** [Open] takes the delimiter as configured: nothing replaces an empty
    one. *)
Lemma Open_keeps_delimiter k cfg w s e w' :
  Open k cfg w = ((Some s, e), w') → Delimiter (config s) = Delimiter cfg.
Proof. intros Hrun. by destruct (Open_success_reader _ _ _ _ _ _ Hrun) as [-> _]. Qed.
End open_facts.

(** C9.  When the device was opened (descriptor [n]) and a later step of
    [Open] fails, [Open] returns no reader and the wrapped error of that
    step, it has issued no [close], and [n] is still in the table of open
    descriptors. *)
Theorem Open_failure_leaves_descriptor_open `{UnixConsts}
    (k : OpenAnswers) (cfg : Config) (w : World) (n : Z) :
  ans_open k = inl n →
  (∀ e, ans_tcgets k = inr e →
     Open k cfg w =
       ((None, Some (Wrapf "get termios" e)),
        {| open_fds := {[n]} ∪ open_fds w; io_errors := io_errors w;
           trace := trace w ++ [SysOpen (Device cfg) open_flags 438;
                                SysIoctlGet n TCGETS] |})) ∧
  (∀ t e, ans_tcgets k = inl t → ans_tcsets k = Some e →
     Open k cfg w =
       ((None, Some (Wrapf "set termios" e)),
        {| open_fds := {[n]} ∪ open_fds w; io_errors := io_errors w;
           trace := trace w ++ [SysOpen (Device cfg) open_flags 438;
                                SysIoctlGet n TCGETS;
                                SysIoctlSet n TCSETS (configure cfg t)] |})) ∧
  (∀ t e, ans_tcgets k = inl t → ans_tcsets k = None → ans_pipe k = inr e →
     Open k cfg w =
       ((None, Some (Wrapf "pipe" e)),
        {| open_fds := {[n]} ∪ open_fds w; io_errors := io_errors w;
           trace := trace w ++ [SysOpen (Device cfg) open_flags 438;
                                SysIoctlGet n TCGETS;
                                SysIoctlSet n TCSETS (configure cfg t);
                                SysSetNonblock n false;
                                SysPipe] |})) ∧
  (∀ r e w', Open k cfg w = ((r, Some e), w') →
     r = None ∧ n ∈ open_fds w' ∧
     ∀ m res, SysClose m res ∉ drop (length (trace w)) (trace w')).
Proof.
  intros Hopen.
  unfold Open, mbind, M_bind, mret, M_ret, emit, alloc_fd. simpl. rewrite Hopen. simpl.
  split; [|split; [|split]].
  - intros e ->. simpl. by rewrite <- app_assoc.
  - intros t e -> ->. simpl. by rewrite <- !app_assoc.
  - intros t e -> -> ->. simpl. by rewrite <- !app_assoc.
  - intros r e w'.
    destruct (ans_tcgets k) as [t|?]; simpl.
    2:{ intros [= <- _ <-]. simpl. split; [done|]. split; [set_solver|].
        intros m res. rewrite <- app_assoc, drop_app_length. not_in_trace. }
    destruct (ans_tcsets k) as [?|]; simpl.
    { intros [= <- _ <-]. simpl. split; [done|]. split; [set_solver|].
      intros m res. rewrite <- !app_assoc, drop_app_length. not_in_trace. }
    destruct (ans_pipe k) as [[r' p]|?]; simpl; [done|].
    intros [= <- _ <-]. simpl. split; [done|]. split; [set_solver|].
    intros m res. rewrite <- !app_assoc, drop_app_length. not_in_trace.
Qed.

Lemma Open_failure_leaves_descriptor_open_witness :
  Open answers_notty (cfg_of LF) world0 =
    ((None, Some (Wrapf "get termios" (Errno 25))),
     {| open_fds := {[3]} ∪ open_fds world0; io_errors := io_errors world0;
        trace := trace world0 ++ [SysOpen "/dev/pts/1" open_flags 438;
                                  SysIoctlGet 3 TCGETS] |}).
Proof.
  apply (proj1 (Open_failure_leaves_descriptor_open answers_notty (cfg_of LF) world0 3 eq_refl)).
  reflexivity.
Defined.

(** ** The documented default delimiter *)

(** C4, at the failing input.  [Config] documents the delimiter as
    defaulting to "\r\n", and [Open] stores an empty delimiter as it is.
    The reader it returns does not frame on CRLF: on the stream
    "a\r\nb\r\n" [ReadLine] returns the empty line where a CRLF reader
    returns "a", and [ReadLinesLoop] never leaves its framing loop where a
    CRLF reader calls [onLine] with "a" and "b". *)
Theorem Open_empty_delimiter_not_defaulted :
  fst (Open answers_ok (cfg_of []) world0) = (Some (reader_of []), None) ∧
  Delimiter (config (reader_of [])) = [] ∧
  ReadLine (reader_of []) [chunk two_crlf_lines]
    = ([SysPoll [3; 4]; SysRead 3 4096], Return ([], None)) ∧
  ReadLine (reader_of CRLF) [chunk two_crlf_lines]
    = ([SysPoll [3; 4]; SysRead 3 4096], Return (B "a", None)) ∧
  (∀ fuel, ReadLinesLoop fuel (reader_of []) [chunk two_crlf_lines] = None) ∧
  ReadLinesLoop 7 (reader_of CRLF) [chunk two_crlf_lines]
    = Some ([SysPoll [3; 4]; SysRead 3 4096; CallOnLine (B "a"); CallOnLine (B "b");
             SysPoll [3; 4]], Waiting []).
Proof.
  split; [by vm_compute|]. split; [done|]. split; [by vm_compute|].
  split; [by vm_compute|]. split; [|by vm_compute].
  intros fuel. unfold ReadLinesLoop, chunk. cbn.
  by rewrite frame_lines_empty_delimiter.
Qed.

(** ** [Close] *)

Section close_facts.
Implicit Types s : SerialReader.
Implicit Types w : World.

Lemma Close_again s w : closeOnce s = true → Close s w = ((s, None), w).
Proof. intros Honce. unfold Close. by rewrite Honce. Qed.

Lemma Close_closeOnce s w s1 e w1 :
  Close s w = ((s1, e), w1) → closeOnce s1 = true.
Proof.
  destruct (closeOnce s) eqn:Honce.
  - rewrite Close_again by done. by intros [= <- _ _].
  - unfold Close. rewrite Honce.
    unfold mbind, M_bind, mret, M_ret.
    repeat (case_match; simplify_eq/=); by intros [= <- _ _].
Qed.

Lemma Close_times_closed n s w :
  closeOnce s = true → Close_times n s w = ((s, replicate n None), w).
Proof.
  intros Honce. induction n as [|n IH]; [done|].
  cbn [Close_times]. unfold mbind, M_bind, mret, M_ret.
  rewrite Close_again by done. by rewrite IH.
Qed.

(** The reader a first [Close] leaves behind. *)
Lemma Close_first_reader s w s1 e w1 :
  closeOnce s = false → Close s w = ((s1, e), w1) →
  done s1 = true ∧ fd s1 = fd s ∧ pipeR s1 = pipeR s ∧ pipeW s1 = pipeW s ∧
  config s1 = config s ∧
  match file s with
  | Some f => ∃ f', file s1 = Some f' ∧ file_closed f' = true ∧
                    file_name f' = file_name f ∧ file_fd f' = file_fd f
  | None => file s1 = None
  end.
Proof.
  intros Honce. unfold Close. rewrite Honce.
  unfold file_Close, mbind, M_bind, mret, M_ret.
  repeat (case_match; simplify_eq/=); intros [= <- _ _]; simpl;
    repeat split; try done; by eexists.
Qed.

(** [close(2)] takes the descriptor out of the table, if it was there. *)
Lemma sys_close_fds n w r w' :
  sys_close n w = (r, w') → ∀ m, m ∈ open_fds w' ↔ (m ∈ open_fds w ∧ m ≠ n).
Proof.
  unfold sys_close. case_decide as Hn; intros [= <- <-] m; simpl.
  - by rewrite elem_of_difference, elem_of_singleton.
  - split; [|by intros [? _]]. intros Hm. split; [done|]. by intros ->.
Qed.
(** The table of open descriptors after a first [Close]. *)
Lemma Close_first_fds s w s1 e w1 :
  closeOnce s = false → Close s w = ((s1, e), w1) →
  ∀ m, m ∈ open_fds w1 ↔
       (m ∈ open_fds w ∧ m ≠ fd s ∧
        (∀ f, file s = Some f → file_closed f = false → m ≠ file_fd f) ∧
        (0 < pipeR s → m ≠ pipeR s) ∧ (0 < pipeW s → m ≠ pipeW s)).
Proof.
  intros Honce Hclose m. run_Close Hclose;
    repeat match goal with
           | H : (_ <? _) = true |- _ => apply Z.ltb_lt in H
           | H : (_ <? _) = false |- _ => apply Z.ltb_ge in H
           end;
    rewrite ?elem_of_difference, ?elem_of_singleton in *;
    (split;
     [ intros Hm; repeat split; intros; simplify_eq;
       try tauto; try lia; try congruence; try (intros ->; tauto)
     | intros (Hm & Hfd & Hfile & Hr & Hw);
       repeat split; auto; try tauto; try lia;
       try (eapply Hfile; [eassumption|done]) ]).
Qed.

(** The actions of a first [Close], in order; each step is there exactly
    when its guard in the source holds. *)
Lemma Close_first_trace s w s1 e w1 :
  closeOnce s = false → Close s w = ((s1, e), w1) →
  ∃ r0 r1 r2 r3,
    trace w1 = trace w ++
      [ChanClose] ++
      (if 0 <? pipeW s then [SysWrite (pipeW s) [x01]] else []) ++
      match file s with
      | Some f => if file_closed f then [] else [SysClose (file_fd f) r0]
      | None => []
      end ++
      [SysClose (fd s) r1] ++
      (if 0 <? pipeR s then [SysClose (pipeR s) r2] else []) ++
      (if 0 <? pipeW s then [SysClose (pipeW s) r3] else []).
Proof.
  intros Honce Hclose. run_Close Hclose;
    rewrite <- ?app_assoc; simpl; by eexists _, _, _, _.
  Unshelve. all: exact None.
Qed.

(** The trace of a first [Close] on a reader whose handle wraps the
    reader's own descriptor. *)
Lemma Close_trace (s s1 : SerialReader) (w w1 : World) (e : option error) (f : OsFile) :
  closeOnce s = false →
  file s = Some f → file_closed f = false → file_fd f = fd s →
  fd s ∈ open_fds w → 0 < pipeR s → 0 < pipeW s →
  Close s w = ((s1, e), w1) →
  ∃ r1 r2,
    trace w1 = trace w ++
      [ChanClose;
       SysWrite (pipeW s) [x01];
       SysClose (fd s) (io_errors w !! fd s);
       SysClose (fd s) (Some EBADF);
       SysClose (pipeR s) r1;
       SysClose (pipeW s) r2].
Proof.
  intros Honce Hf Hopen Hfd Hin Hr Hw Hclose.
  apply Z.ltb_lt in Hr, Hw.
  unfold Close, file_Close, sys_close, sys_write, emit, mbind, M_bind, mret, M_ret in Hclose.
  rewrite Honce, Hf, Hopen, Hr, Hw, Hfd in Hclose. simpl in Hclose.
  destruct (decide (pipeW s ∈ open_fds w)); simpl in Hclose;
    (destruct (decide (fd s ∈ open_fds w)); [|done]); simpl in Hclose;
    (destruct (decide (fd s ∈ open_fds w ∖ {[fd s]})) as [Hbad|_];
       [apply elem_of_difference in Hbad as [_ Hbad]; by destruct Hbad; apply elem_of_singleton|]);
    simpl in Hclose;
    repeat (case_decide; simpl in Hclose);
    injection Hclose as <- <- <-; simpl;
    rewrite <- ?app_assoc; simpl; by eexists _, _.
Qed.
End close_facts.

(** C3, counterexample.  The driver reports an I/O error when the device
    handle is closed: the first [Close] returns that error (the second
    returns nil). *)
Lemma Close_first_call_error_counterexample :
  fst (Close_times 2 (reader_of LF) world_eio)
    = ({| fd := 3;
          file := Some {| file_fd := 3; file_name := "/dev/pts/1"; file_closed := true |};
          done := true; closeOnce := true; config := cfg_of LF; pipeR := 4; pipeW := 5 |},
       [Some (PathError "close" "/dev/pts/1" EIO); None]) ∧
  snd (fst (Close (reader_of LF) world_eio)) ≠ None.
Proof. split; by vm_compute. Qed.

(** C3, amended.  Whatever the reader and the process state, [n + 1]
    calls of [Close], from whichever callers ([sync.Once] lets one call
    run the teardown and makes the others wait for it), leave the reader
    and the world as the first call does: the teardown runs in the first
    call only, and each later call does nothing and returns nil.  The
    first call returns what closing the device handle returned: nil when
    the handle's descriptor is open and its driver reports nothing.  The
    teardown of the first call is: [done] is closed, once; the wakeup
    byte is written to a pipe write end with a positive number; then the
    device handle, the device descriptor, the pipe's read end and its
    write end are closed, each by one [close] call that is made exactly
    when its guard holds; afterwards the handle is closed and a
    descriptor is open exactly when it was open before and is none of
    those. *)
Theorem Close_idempotent (n : nat) (s s1 : SerialReader) (w w1 : World) (e : option error) :
  Close s w = ((s1, e), w1) →
  Close_times (S n) s w = ((s1, e :: replicate n None), w1) ∧
  Close s1 w1 = ((s1, None), w1) ∧
  (closeOnce s = false →
     ∃ acts, trace w1 = trace w ++ ChanClose :: acts ∧ ChanClose ∉ acts) ∧
  (∀ f, closeOnce s = false → file s = Some f → file_closed f = false →
     e = if decide (file_fd f ∈ open_fds w)
         then PathError "close" (file_name f) <$> io_errors w !! file_fd f
         else Some (PathError "close" (file_name f) EBADF)) ∧
  (closeOnce s = false →
     done s1 = true ∧ closeOnce s1 = true ∧
     (∀ f, file s = Some f → ∃ f', file s1 = Some f' ∧ file_closed f' = true) ∧
     (∀ m, m ∈ open_fds w1 ↔
           (m ∈ open_fds w ∧ m ≠ fd s ∧
            (∀ f, file s = Some f → file_closed f = false → m ≠ file_fd f) ∧
            (0 < pipeR s → m ≠ pipeR s) ∧ (0 < pipeW s → m ≠ pipeW s))) ∧
     ∃ r0 r1 r2 r3,
       trace w1 = trace w ++
         [ChanClose] ++
         (if 0 <? pipeW s then [SysWrite (pipeW s) [x01]] else []) ++
         match file s with
         | Some f => if file_closed f then [] else [SysClose (file_fd f) r0]
         | None => []
         end ++
         [SysClose (fd s) r1] ++
         (if 0 <? pipeR s then [SysClose (pipeR s) r2] else []) ++
         (if 0 <? pipeW s then [SysClose (pipeW s) r3] else [])).
Proof.
  intros Hclose.
  pose proof (Close_closeOnce _ _ _ _ _ Hclose) as Honce1.
  split; [|split; [|split; [|split]]].
  - cbn [Close_times]. unfold mbind, M_bind, mret, M_ret.
    rewrite Hclose. by rewrite Close_times_closed.
  - by apply Close_again.
  - intros Honce. run_Close Hclose;
      (eexists; split; [rewrite <- ?app_assoc; simpl; reflexivity | not_in_trace]).
  - intros f Honce Hf Hopen. run_Close Hclose; done.
  - intros Honce.
    destruct (Close_first_reader _ _ _ _ _ Honce Hclose) as (Hdone & _ & _ & _ & _ & Hfile).
    split; [done|]. split; [done|]. split; [|split].
    + intros f Hf. rewrite Hf in Hfile. destruct Hfile as (f' & ? & ? & _). by exists f'.
    + by eapply Close_first_fds.
    + by eapply Close_first_trace.
Qed.

Lemma Close_idempotent_witness :
  Close_times 3 (reader_of LF) world_open
    = ((fst (fst (Close (reader_of LF) world_open)), [None; None; None]),
       snd (Close (reader_of LF) world_open)) ∧
  done (fst (fst (Close (reader_of LF) world_open))) = true ∧
  (∀ m, m ∈ open_fds (snd (Close (reader_of LF) world_open)) ↔
        (m ∈ open_fds world_open ∧ m ≠ 3 ∧
         (∀ f, file (reader_of LF) = Some f → file_closed f = false → m ≠ file_fd f) ∧
         (0 < 4 → m ≠ 4) ∧ (0 < 5 → m ≠ 5))) ∧
  ∃ r0 r1 r2 r3,
    trace (snd (Close (reader_of LF) world_open))
      = [ChanClose; SysWrite 5 [x01]; SysClose 3 r0; SysClose 3 r1;
         SysClose 4 r2; SysClose 5 r3].
Proof.
  destruct (Close_idempotent 2 (reader_of LF) (fst (fst (Close (reader_of LF) world_open)))
              world_open (snd (Close (reader_of LF) world_open)) None)
    as (Htimes & _ & _ & _ & Hteardown).
  - vm_compute. reflexivity.
  - destruct (Hteardown eq_refl) as (Hdone & _ & _ & Hfds & Htrace).
    split; [exact Htimes|]. split; [exact Hdone|]. split; [exact Hfds|]. exact Htrace.
Defined.

(** ** Operations on a closed reader *)

Section after_close.
Context `{UC : UnixConsts}.

Lemma Close_first_releases s w s1 e w1 :
  closeOnce s = false → Close s w = ((s1, e), w1) →
  (fd s ∉ open_fds w1) ∧ (0 < pipeR s → pipeR s ∉ open_fds w1) ∧
  (0 < pipeW s → pipeW s ∉ open_fds w1).
Proof.
  intros Honce Hclose. run_Close Hclose;
    repeat match goal with
           | H : (_ <? _) = true |- _ => apply Z.ltb_lt in H
           | H : (_ <? _) = false |- _ => apply Z.ltb_ge in H
           end;
    rewrite ?elem_of_difference, ?elem_of_singleton in *;
    (split; [|split]); try (intros ?); try tauto; try lia.
Qed.
End after_close.

(** C5, counterexample.  Called on a reader that [Close] has closed,
    [ReadLinesLoop] first polls descriptors 3 and 4, which [Close] has
    released, and then returns without calling [onError]: no closed-state
    error is reported. *)
Lemma ReadLinesLoop_after_Close_counterexample :
  let '((s1, _), w1) := Close (reader_of LF) world_open in
  ReadLinesLoop 4 s1 [EvPoll false 32 32 (ReadOk [])]
    = Some ([SysPoll [3; 4]], Return ()) ∧
  onError_calls [SysPoll [3; 4]] = [] ∧
  (3 ∉ open_fds w1) ∧ (4 ∉ open_fds w1).
Proof.
  vm_compute. split; [done|]. split; [done|].
  split; (eapply bool_decide_unpack; vm_compute; exact I).
Qed.

(** C5, amended.  On a reader that a completed [Close] has closed, once
    the readiness wait returns without failure: [ReadLine] returns the
    empty line with the error "serialreader closed"; [ReadLinesLoop]
    returns without calling either callback; neither reads the device or
    the self-pipe, but both have issued the wait on the reader's
    descriptors, which [Close] has released.  [WriteLine] has no check of
    its own: it calls the device handle, which refuses with
    "file already closed" and makes no system call. *)
Theorem operations_after_Close `{UnixConsts}
    (s s1 : SerialReader) (w w1 : World) (e : option error) :
  closeOnce s = false → Close s w = ((s1, e), w1) →
  (∀ closed revDev revPipe rd evs,
     ReadLine s1 (EvPoll closed revDev revPipe rd :: evs)
       = ([SysPoll [fd s; pipeR s]], Return ([], Some ErrReaderClosed))) ∧
  (∀ fuel closed revDev revPipe rd evs,
     ReadLinesLoop fuel s1 (EvPoll closed revDev revPipe rd :: evs)
       = Some ([SysPoll [fd s; pipeR s]], Return ())) ∧
  (∀ kw line newline w2,
     WriteLine kw s1 line newline w2
       = (WReturn (Some match file s with
                        | Some f => PathError "write" (file_name f) ErrFileClosed
                        | None => ErrInvalid
                        end), w2)) ∧
  (fd s ∉ open_fds w1) ∧ (0 < pipeR s → pipeR s ∉ open_fds w1).
Proof.
  intros Honce Hclose.
  destruct (Close_first_reader _ _ _ _ _ Honce Hclose) as (Hdone & Hfd & Hr & Hw & Hcfg & Hfile).
  destruct (Close_first_releases _ _ _ _ _ Honce Hclose) as (Hrel & Hrel' & _).
  split; [|split; [|split; [|split]]]; try done.
  - intros. unfold ReadLine. cbn [ReadLine_from]. by rewrite Hdone, Hfd, Hr.
  - intros. unfold ReadLinesLoop. cbn [ReadLinesLoop_from]. by rewrite Hdone, Hfd, Hr.
  - intros kw line newline w2. unfold WriteLine, file_WriteString.
    destruct (file s) as [f|].
    + destruct Hfile as (f' & -> & -> & -> & _). done.
    + by rewrite Hfile.
Qed.

Lemma operations_after_Close_witness :
  ReadLine (fst (fst (Close (reader_of LF) world_open))) [EvPoll false 32 32 (ReadOk [])]
    = ([SysPoll [3; 4]], Return ([], Some ErrReaderClosed)) ∧
  ReadLinesLoop 4 (fst (fst (Close (reader_of LF) world_open))) [EvPoll false 32 32 (ReadOk [])]
    = Some ([SysPoll [3; 4]], Return ()) ∧
  fst (WriteLine [WriteOk 5] (fst (fst (Close (reader_of LF) world_open))) (B "pong") LF
         (snd (Close (reader_of LF) world_open)))
    = WReturn (Some (PathError "write" "/dev/pts/1" ErrFileClosed)).
Proof.
  destruct (operations_after_Close (reader_of LF)
              (fst (fst (Close (reader_of LF) world_open)))
              world_open (snd (Close (reader_of LF) world_open)) None)
    as (H1 & H2 & H3 & _).
  - reflexivity.
  - vm_compute. reflexivity.
  - split; [apply H1|]. split; [apply H2|]. by rewrite H3.
Defined.

(** ** What [Close] releases *)

(** C6, at the failing inputs: every reader [Open] returns (with the
    descriptor numbers a kernel hands out), closed for the first time.
    The device handle is [os.NewFile(uintptr(fd), ...)], so it wraps the
    reader's own descriptor: closing the handle closes that descriptor,
    and [syscall.Close(s.fd)] then closes it a second time, which the
    kernel refuses with EBADF.  The trace of the first [Close] is fixed:
    [done] is closed, one byte goes to the self-pipe, then [close] of the
    device descriptor through the handle, [close] of the same descriptor
    again, [close] of the pipe's read end, [close] of its write end. *)
Theorem Close_closes_device_descriptor_twice `{UnixConsts}
    (k : OpenAnswers) (cfg : Config) (w w0 w1 : World)
    (s s1 : SerialReader) (e0 e : option error) :
  Open k cfg w = ((Some s, e0), w0) →
  0 ≤ fd s → 0 < pipeR s → 0 < pipeW s →
  Close s w0 = ((s1, e), w1) →
  file s = Some {| file_fd := fd s; file_name := Device cfg; file_closed := false |} ∧
  ∃ r1 r2,
    trace w1 = trace w0 ++
      [ChanClose;
       SysWrite (pipeW s) [x01];
       SysClose (fd s) (io_errors w0 !! fd s);
       SysClose (fd s) (Some EBADF);
       SysClose (pipeR s) r1;
       SysClose (pipeW s) r2].
Proof.
  intros Hopen Hfd Hr Hw Hclose.
  destruct (Open_success_reader _ _ _ _ _ _ Hopen) as (_ & _ & Honce & Hfile & _).
  unfold NewFile in Hfile. destruct (Z.ltb_spec (fd s) 0) as [?|_]; [lia|].
  split; [done|].
  eapply Close_trace; try done.
  by eapply Open_device_descriptor_open.
Qed.

Lemma Close_closes_device_descriptor_twice_witness :
  file (reader_of LF)
    = Some {| file_fd := 3; file_name := "/dev/pts/1"; file_closed := false |} ∧
  ∃ r1 r2,
    trace (snd (Close (reader_of LF) (snd (Open answers_ok (cfg_of LF) world0))))
      = trace (snd (Open answers_ok (cfg_of LF) world0)) ++
        [ChanClose; SysWrite 5 [x01];
         SysClose 3 (io_errors (snd (Open answers_ok (cfg_of LF) world0)) !! 3);
         SysClose 3 (Some EBADF); SysClose 4 r1; SysClose 5 r2].
Proof.
  apply (Close_closes_device_descriptor_twice answers_ok (cfg_of LF) world0
           (snd (Open answers_ok (cfg_of LF) world0))
           (snd (Close (reader_of LF) (snd (Open answers_ok (cfg_of LF) world0))))
           (reader_of LF)
           (fst (fst (Close (reader_of LF) (snd (Open answers_ok (cfg_of LF) world0)))))
           None
           (snd (fst (Close (reader_of LF) (snd (Open answers_ok (cfg_of LF) world0)))))).
  - vm_compute. reflexivity.
  - vm_compute. discriminate.
  - reflexivity.
  - reflexivity.
  - vm_compute. reflexivity.
Defined.



(** * Further properties of the package *)

(** ** The attributes [Open] commits *)

(** X1.  Whatever attributes the device had, the block [Open] commits
    has every input, output and local flag of raw mode cleared: no break
    or parity marking, no stripping, no CR/NL translation, no XON/XOFF,
    no output post-processing, no echo, no canonical mode, no signals, no
    extended processing. *)
Theorem configure_raw_mode `{UnixConsts} (cfg : Config) (t : Termios) :
  Forall (λ flag, Z.land (Iflag (configure cfg t)) flag = 0)
         [IGNBRK; BRKINT; PARMRK; ISTRIP; INLCR; IGNCR; ICRNL; IXON] ∧
  Z.land (Oflag (configure cfg t)) OPOST = 0 ∧
  Forall (λ flag, Z.land (Lflag (configure cfg t)) flag = 0)
         [ECHO; ECHONL; ICANON; ISIG; IEXTEN].
Proof.
  unfold configure. cbn [Iflag Oflag Lflag].
  split; [|split]; [repeat constructor; bitwise | bitwise | repeat constructor; bitwise].
Qed.

(** X2.  The attribute edits are idempotent: configuring a block that
    [Open] has already configured, for the same configuration, changes
    nothing. *)
Theorem configure_idempotent `{UnixConsts} (cfg : Config) (t : Termios) :
  configure cfg (configure cfg t) = configure cfg t.
Proof.
  unfold configure. cbn [Iflag Oflag Cflag Lflag Line Cc Ispeed Ospeed].
  f_equal; try bitwise.
  destruct (decide (VMIN = VTIME)) as [->|Hne].
  - by rewrite !list_insert_insert_eq.
  - rewrite (list_insert_insert_ne _ VMIN VTIME) by done.
    by rewrite !list_insert_insert_eq.
Qed.

(** X3.  The baud-rate field of the committed control flags is that of
    the table entry for the configured rate, whatever rate the device had
    before and whatever the other edits of the control flags. *)
Theorem configure_baud_field `{UnixConsts} (cfg : Config) (t : Termios) :
  Z.land (Cflag (configure cfg t)) CBAUD = Z.land (baudToUnix (BaudRate cfg)) CBAUD.
Proof. unfold configure. cbn [Cflag]. bitwise. Qed.

(** X4.  When the character-size value CS8 lies in the CSIZE field and
    neither the baud field nor the table entry touches the CSIZE and
    PARENB bits (as on Linux), the committed control flags say 8-bit
    characters and no parity. *)
Theorem configure_eight_bits_no_parity `{UnixConsts} (cfg : Config) (t : Termios) :
  Z.land CS8 CSIZE = CS8 → Z.land CS8 PARENB = 0 →
  Z.land CBAUD CSIZE = 0 →
  Z.land (baudToUnix (BaudRate cfg)) CSIZE = 0 →
  Z.land (baudToUnix (BaudRate cfg)) PARENB = 0 →
  Z.land (Cflag (configure cfg t)) CSIZE = CS8 ∧
  Z.land (Cflag (configure cfg t)) PARENB = 0.
Proof.
  intros Hcs Hpar Hbaud Hb1 Hb2. unfold configure. cbn [Cflag].
  set (b := baudToUnix (BaudRate cfg)) in *.
  assert (∀ i, 0 ≤ i → Z.testbit CS8 i = true → Z.testbit CSIZE i = true) as H1.
  { intros i Hi Hc. rewrite <- Hcs, Z.land_spec in Hc. by apply andb_true_iff in Hc as [_ ?]. }
  assert (∀ x y i, Z.land x y = 0 → Z.testbit x i && Z.testbit y i = false) as H0.
  { intros x y i Hxy. by rewrite <- Z.land_spec, Hxy, Z.bits_0. }
  split.
  - apply Z.bits_inj'. intros i Hi.
    pose proof (H1 i Hi) as H1i.
    pose proof (H0 _ _ i Hbaud) as H2. pose proof (H0 _ _ i Hb1) as H3.
    repeat first [ rewrite Z.land_spec | rewrite Z.lor_spec | rewrite Z.ldiff_spec ].
    destruct (Z.testbit CS8 i), (Z.testbit CSIZE i), (Z.testbit CBAUD i),
      (Z.testbit b i), (Z.testbit (Cflag t) i), (Z.testbit PARENB i);
      simpl in *; try done; by specialize (H1i eq_refl).
  - apply Z.bits_inj'. intros i Hi.
    pose proof (H0 _ _ i Hpar) as H2. pose proof (H0 _ _ i Hb2) as H3.
    repeat first [ rewrite Z.land_spec | rewrite Z.lor_spec | rewrite Z.ldiff_spec
                 | rewrite Z.bits_0 ].
    destruct (Z.testbit CS8 i), (Z.testbit CSIZE i), (Z.testbit CBAUD i),
      (Z.testbit b i), (Z.testbit (Cflag t) i), (Z.testbit PARENB i);
      simpl in *; done.
Qed.

Lemma configure_eight_bits_no_parity_witness :
  Z.land (Cflag (configure (cfg_of LF) tty_termios)) CSIZE = CS8 ∧
  Z.land (Cflag (configure (cfg_of LF) tty_termios)) PARENB = 0.
Proof.
  apply (configure_eight_bits_no_parity (H := linux_amd64) (cfg_of LF) tty_termios);
    reflexivity.
Defined.

(** X5.  When VMIN and VTIME are distinct slots of the control-character
    array, the committed array has 1 at VMIN (a read returns as soon as
    one byte is there) and 0 at VTIME (no inter-byte timer), and every
    other slot, the line discipline and the two speed fields are as the
    device had them. *)
Theorem configure_control_characters `{UnixConsts} (cfg : Config) (t : Termios) :
  VMIN ≠ VTIME → (VMIN < length (Cc t))%nat → (VTIME < length (Cc t))%nat →
  Cc (configure cfg t) !! VMIN = Some 1 ∧
  Cc (configure cfg t) !! VTIME = Some 0 ∧
  (∀ i, i ≠ VMIN → i ≠ VTIME → Cc (configure cfg t) !! i = Cc t !! i) ∧
  length (Cc (configure cfg t)) = length (Cc t) ∧
  Line (configure cfg t) = Line t ∧
  Ispeed (configure cfg t) = Ispeed t ∧ Ospeed (configure cfg t) = Ospeed t.
Proof.
  intros Hne Hmin Htime. unfold configure. cbn [Cc Line Ispeed Ospeed].
  repeat split.
  - rewrite list_lookup_insert_ne by done. by apply list_lookup_insert_eq.
  - apply list_lookup_insert_eq. by rewrite length_insert.
  - intros i H1 H2. by rewrite !list_lookup_insert_ne.
  - by rewrite !length_insert.
Qed.

Lemma configure_control_characters_witness :
  Cc (configure (cfg_of LF) tty_termios) !! 6%nat = Some 1 ∧
  Cc (configure (cfg_of LF) tty_termios) !! 5%nat = Some 0 ∧
  (∀ i, i ≠ 6%nat → i ≠ 5%nat →
        Cc (configure (cfg_of LF) tty_termios) !! i = Cc tty_termios !! i) ∧
  length (Cc (configure (cfg_of LF) tty_termios)) = length (Cc tty_termios) ∧
  Line (configure (cfg_of LF) tty_termios) = Line tty_termios ∧
  Ispeed (configure (cfg_of LF) tty_termios) = Ispeed tty_termios ∧
  Ospeed (configure (cfg_of LF) tty_termios) = Ospeed tty_termios.
Proof.
  apply (configure_control_characters (H := linux_amd64) (cfg_of LF) tty_termios).
  - discriminate.
  - vm_compute. lia.
  - vm_compute. lia.
Defined.

(** ** The outcomes of [Open] *)

Section open_outcomes.
Context `{UC : UnixConsts}.

(** What a run of [Open] leaves in the world, by the step that ended it. *)
Lemma Open_inv k cfg w r e w' :
  Open k cfg w = ((r, e), w') →
  (∃ err, ans_open k = inr err ∧ r = None ∧ e = Some (Wrapf "open failed" err) ∧
          open_fds w' = open_fds w ∧
          trace w' = trace w ++ [SysOpen (Device cfg) open_flags 438]) ∨
  (∃ n, ans_open k = inl n ∧ r = None ∧ is_Some e ∧
        open_fds w' = {[n]} ∪ open_fds w) ∨
  (∃ n t p q, ans_open k = inl n ∧ ans_tcgets k = inl t ∧ ans_tcsets k = None ∧
        ans_pipe k = inl (p, q) ∧ e = None ∧
        r = Some {| fd := n; file := NewFile n (Device cfg); done := false;
                    closeOnce := false; config := cfg; pipeR := p; pipeW := q |} ∧
        open_fds w' = {[q]} ∪ ({[p]} ∪ ({[n]} ∪ open_fds w)) ∧
        trace w' = trace w ++ [SysOpen (Device cfg) open_flags 438;
                               SysIoctlGet n TCGETS;
                               SysIoctlSet n TCSETS (configure cfg t);
                               SysSetNonblock n false;
                               SysPipe]).
Proof.
  unfold Open, mbind, M_bind, mret, M_ret, emit, alloc_fd. simpl.
  destruct (ans_open k) as [n|err]; simpl.
  2:{ intros [= <- <- <-]. left. by exists err. }
  destruct (ans_tcgets k) as [t|err]; simpl.
  2:{ intros [= <- <- <-]. right; left. by exists n. }
  destruct (ans_tcsets k) as [err|]; simpl.
  { intros [= <- <- <-]. right; left. by exists n. }
  destruct (ans_pipe k) as [[p q]|err]; simpl.
  2:{ intros [= <- <- <-]. right; left. by exists n. }
  intros [= <- <- <-]. right; right. exists n, t, p, q. simpl.
  repeat split; try done. by rewrite <- !app_assoc.
Qed.
End open_outcomes.

(** X6.  [Open] returns a reader or an error, never both and never
    neither.  A returned reader is open, carries the configuration as
    passed and the descriptors the kernel answered, and exactly these
    three descriptors have been added to the process; when the opening of
    the device itself fails, the error is the wrapped "open failed", one
    system call was made and no descriptor was added. *)
Theorem Open_reader_or_error `{UnixConsts}
    (k : OpenAnswers) (cfg : Config) (w w' : World)
    (r : option SerialReader) (e : option error) :
  Open k cfg w = ((r, e), w') →
  (r = None ↔ is_Some e) ∧
  (∀ s, r = Some s →
     ans_open k = inl (fd s) ∧ ans_pipe k = inl (pipeR s, pipeW s) ∧
     config s = cfg ∧ done s = false ∧ closeOnce s = false ∧
     file s = NewFile (fd s) (Device cfg) ∧
     ∀ m, m ∈ open_fds w' ↔ (m ∈ open_fds w ∨ m = fd s ∨ m = pipeR s ∨ m = pipeW s)) ∧
  (∀ err, ans_open k = inr err →
     e = Some (Wrapf "open failed" err) ∧ open_fds w' = open_fds w ∧
     trace w' = trace w ++ [SysOpen (Device cfg) open_flags 438]).
Proof.
  intros Hrun.
  destruct (Open_inv _ _ _ _ _ _ Hrun)
    as [(err & Ho & -> & -> & Hfds & Htr)
       |[(n & Ho & -> & He & Hfds)
        |(n & t & p & q & Ho & Hg & Hs & Hp & -> & -> & Hfds & Htr)]].
  - split; [|split].
    + split; [by eexists|done].
    + done.
    + intros err' Herr. rewrite Ho in Herr. by injection Herr as <-.
  - split; [|split].
    + by split.
    + done.
    + intros err' Herr. by rewrite Ho in Herr.
  - split; [|split].
    + split; [done|]. by intros [? ?].
    + intros s [= <-]. simpl. repeat split; try done.
      * rewrite Hfds, !elem_of_union, !elem_of_singleton. tauto.
      * rewrite Hfds, !elem_of_union, !elem_of_singleton. tauto.
    + intros err' Herr. by rewrite Ho in Herr.
Qed.

Lemma Open_reader_or_error_witness :
  (Some (reader_of LF) = None ↔ is_Some (@None error)) ∧
  (∀ s, Some (reader_of LF) = Some s →
     ans_open answers_ok = inl (fd s) ∧ ans_pipe answers_ok = inl (pipeR s, pipeW s) ∧
     config s = cfg_of LF ∧ done s = false ∧ closeOnce s = false ∧
     file s = NewFile (fd s) (Device (cfg_of LF)) ∧
     ∀ m, m ∈ open_fds (snd (Open answers_ok (cfg_of LF) world0))
          ↔ (m ∈ open_fds world0 ∨ m = fd s ∨ m = pipeR s ∨ m = pipeW s)) ∧
  (∀ err, ans_open answers_ok = inr err →
     @None error = Some (Wrapf "open failed" err) ∧
     open_fds (snd (Open answers_ok (cfg_of LF) world0)) = open_fds world0 ∧
     trace (snd (Open answers_ok (cfg_of LF) world0))
       = trace world0 ++ [SysOpen (Device (cfg_of LF)) open_flags 438]).
Proof.
  apply (Open_reader_or_error answers_ok (cfg_of LF) world0
           (snd (Open answers_ok (cfg_of LF) world0)) (Some (reader_of LF)) None).
  vm_compute. reflexivity.
Defined.

(** ** The descriptors [Close] releases *)

(** X7.  A first [Close] releases the reader's descriptors and nothing
    else: afterwards a descriptor is open exactly when it was open before
    and is none of the device descriptor, the descriptor of a live device
    handle, and the pipe ends whose number is positive. *)
Theorem Close_releases_own_descriptors_only
    (s s1 : SerialReader) (w w1 : World) (e : option error) (m : Z) :
  closeOnce s = false → Close s w = ((s1, e), w1) →
  (m ∈ open_fds w1 ↔
     (m ∈ open_fds w ∧ m ≠ fd s ∧
      (∀ f, file s = Some f → file_closed f = false → m ≠ file_fd f) ∧
      (0 < pipeR s → m ≠ pipeR s) ∧ (0 < pipeW s → m ≠ pipeW s))).
Proof. intros Honce Hclose. by apply (Close_first_fds s w s1 e w1). Qed.

Lemma Close_releases_own_descriptors_only_witness :
  2 ∈ open_fds (snd (Close (reader_of LF) world_open)) ↔
    (2 ∈ open_fds world_open ∧ 2 ≠ fd (reader_of LF) ∧
     (∀ f, file (reader_of LF) = Some f → file_closed f = false → 2 ≠ file_fd f) ∧
     (0 < pipeR (reader_of LF) → 2 ≠ pipeR (reader_of LF)) ∧
     (0 < pipeW (reader_of LF) → 2 ≠ pipeW (reader_of LF))).
Proof.
  apply (Close_releases_own_descriptors_only (reader_of LF)
           (fst (fst (Close (reader_of LF) world_open))) world_open
           (snd (Close (reader_of LF) world_open))
           (snd (fst (Close (reader_of LF) world_open))) 2).
  - reflexivity.
  - vm_compute. reflexivity.
Defined.

(** X8.  A pipe end whose descriptor number is 0 fails the guard
    [s.pipeR > 0] and is left open by [Close]: when the read end is
    descriptor 0 (and the device is not), descriptor 0 is still open
    after [Close] and [Close] has made no [close] call on it. *)
Theorem Close_leaves_pipe_descriptor_zero_open
    (s s1 : SerialReader) (w w1 : World) (e : option error) :
  closeOnce s = false → Close s w = ((s1, e), w1) →
  pipeR s = 0 → fd s ≠ 0 → pipeW s ≠ 0 →
  (∀ f, file s = Some f → file_fd f ≠ 0) →
  0 ∈ open_fds w →
  0 ∈ open_fds w1 ∧ ∀ res, SysClose 0 res ∉ drop (length (trace w)) (trace w1).
Proof.
  intros Honce Hclose Hr Hfd Hw Hfile Hin. split.
  - apply (Close_first_fds s w s1 e w1 Honce Hclose).
    repeat split; try done; try lia.
    intros f Hf _ Heq. by apply (Hfile f).
  - intros res. unfold Close in Hclose. rewrite Honce, Hr in Hclose.
    run_Close Hclose;
      rewrite <- ?app_assoc, drop_app_length; cbn [app];
      intros Hbad;
      repeat (apply elem_of_cons in Hbad as [Hbad|Hbad];
              [first [ discriminate Hbad
                     | injection Hbad as ? ?;
                       first [ congruence
                             | exfalso; eapply Hfile; [reflexivity|congruence] ] ]|]);
      by apply elem_of_nil in Hbad.
Qed.

Lemma Close_leaves_pipe_descriptor_zero_open_witness :
  0 ∈ open_fds (snd (Close reader_pipe0 world_pipe0)) ∧
  ∀ res, SysClose 0 res
         ∉ drop (length (trace world_pipe0)) (trace (snd (Close reader_pipe0 world_pipe0))).
Proof.
  apply (Close_leaves_pipe_descriptor_zero_open reader_pipe0
           (fst (fst (Close reader_pipe0 world_pipe0))) world_pipe0
           (snd (Close reader_pipe0 world_pipe0))
           (snd (fst (Close reader_pipe0 world_pipe0)))).
  - reflexivity.
  - vm_compute. reflexivity.
  - reflexivity.
  - discriminate.
  - discriminate.
  - intros f [= <-]. discriminate.
  - eapply bool_decide_unpack; vm_compute; exact I.
Defined.

(** X9.  [Open] followed by [Close] leaves no descriptor behind: when
    the kernel answered [Open] with fresh descriptors, non-negative for
    the device and positive for the pipe ends, the descriptors open after
    [Close] are exactly those open before [Open]. *)
Theorem Open_then_Close_restores_descriptors `{UnixConsts}
    (k : OpenAnswers) (cfg : Config) (w w0 w1 : World)
    (s s1 : SerialReader) (e0 e : option error) :
  Open k cfg w = ((Some s, e0), w0) →
  Close s w0 = ((s1, e), w1) →
  0 ≤ fd s → 0 < pipeR s → 0 < pipeW s →
  fd s ∉ open_fds w → pipeR s ∉ open_fds w → pipeW s ∉ open_fds w →
  open_fds w1 = open_fds w.
Proof.
  intros Hopen Hclose Hfd Hr Hw Hn1 Hn2 Hn3.
  destruct (Open_inv _ _ _ _ _ _ Hopen)
    as [(err & _ & Hr0 & _)|[(n & _ & Hr0 & _)
       |(n & t & p & q & _ & _ & _ & _ & _ & [= ->] & Hfds & _)]]; try done.
  simpl in *.
  apply set_eq. intros m.
  pose proof (λ Ho, Close_first_fds _ _ _ _ _ Ho Hclose m) as Hiff.
  specialize (Hiff eq_refl). rewrite Hiff. clear Hiff. simpl.
  rewrite Hfds, !elem_of_union, !elem_of_singleton.
  unfold NewFile. destruct (Z.ltb_spec n 0) as [?|_]; [lia|].
  split.
  - intros ([Hm|[Hm|[Hm|Hm]]] & H1 & H2 & H3 & H4); try done.
    + by destruct (H4 Hw).
    + by destruct (H3 Hr).
  - intros Hm. split; [tauto|]. split; [by intros ->|]. split; [|split].
    + intros f [= <-] _. simpl. by intros ->.
    + intros _ ->. done.
    + intros _ ->. done.
Qed.

Lemma Open_then_Close_restores_descriptors_witness :
  open_fds (snd (Close (reader_of LF) (snd (Open answers_ok (cfg_of LF) world0))))
    = open_fds world0.
Proof.
  apply (Open_then_Close_restores_descriptors answers_ok (cfg_of LF) world0
           (snd (Open answers_ok (cfg_of LF) world0))
           (snd (Close (reader_of LF) (snd (Open answers_ok (cfg_of LF) world0))))
           (reader_of LF)
           (fst (fst (Close (reader_of LF) (snd (Open answers_ok (cfg_of LF) world0)))))
           None
           (snd (fst (Close (reader_of LF) (snd (Open answers_ok (cfg_of LF) world0)))))).
  - vm_compute. reflexivity.
  - vm_compute. reflexivity.
  - vm_compute. discriminate.
  - reflexivity.
  - reflexivity.
  - eapply bool_decide_unpack; vm_compute; exact I.
  - eapply bool_decide_unpack; vm_compute; exact I.
  - eapply bool_decide_unpack; vm_compute; exact I.
Defined.

(** ** [WriteLine] *)

Section write_loop.
Implicit Types p : bytes.
Implicit Types kw : list WriteAnswer.
Implicit Types w : World.

Lemma received_step p nn n :
  0 ≤ nn → 0 ≤ n →
  slice_to p (nn + n) = slice_to p nn ++ take (Z.to_nat n) (slice_from p nn).
Proof.
  intros Hnn Hn. unfold slice_to, slice_from.
  by rewrite take_take_drop, Z2Nat.inj_add.
Qed.

(** The write loop, run from [nn] bytes written: the bytes the kernel
    took in its calls are the bytes of [p] from [nn] on, in order. *)
Lemma fd_Write_received kw sysfd p nn w r w1 :
  0 ≤ nn ≤ len p →
  fd_Write sysfd p nn kw w = (r, w1) →
  open_fds w1 = open_fds w ∧
  ∃ offers,
    trace w1 = trace w ++ (SysWrite sysfd <$> offers) ∧
    head offers = Some (slice_to (slice_from p nn) (Z.min maxRW (len p - nn))) ∧
    match r with
    | FdReturn nn' e =>
        nn ≤ nn' ≤ len p ∧
        slice_to p nn' = slice_to p nn ++ received offers kw ∧
        match e with
        | None => nn' = len p
        | Some e =>
            e ≠ EINTR ∧
            (e = ErrUnexpectedEOF ∨ ∃ c, e = Errno c ∧ c ≠ 0 ∧ WriteErr c ∈ kw)
        end
    | FdBlocked nn' =>
        nn ≤ nn' ≤ len p ∧ slice_to p nn' = slice_to p nn ++ received offers kw
    | FdPanic => True
    end.
Proof.
  revert nn w r w1.
  induction kw as [|a kw IH]; intros nn w r w1 Hnn; cbn [fd_Write];
    unfold mbind, M_bind, mret, M_ret, emit.
  all: set (max := if maxRW <? len p - nn then nn + maxRW else len p).
  all: assert (max - nn = Z.min maxRW (len p - nn)) as Hoffer
         by (subst max; destruct (Z.ltb_spec maxRW (len p - nn)); lia).
  all: assert (nn ≤ max ≤ len p) as Hmax
         by (subst max; destruct (Z.ltb_spec maxRW (len p - nn)); unfold maxRW in *; lia).
  all: set (offer := slice_to (slice_from p nn) (max - nn)).
  all: assert (head [offer] = Some (slice_to (slice_from p nn) (Z.min maxRW (len p - nn))))
         as Hhead by (subst offer; by rewrite Hoffer).
  - intros [= <- <-]. cbn [open_fds trace]. split; [done|].
    exists [offer]. split; [done|]. split; [done|].
    split; [lia|]. cbn [received]. by rewrite app_nil_r.
  - destruct a as [n|c]; cbn [syscall_Write].
    + case_decide as Hintr; [done|clear Hintr].
      destruct (Z.ltb_spec 0 n) as [Hpos|Hnpos]; cbn [andb].
      * destruct (Z.ltb_spec (max - nn) n) as [Hbig|Hfit].
        { intros [= <- <-]. cbn [open_fds trace]. split; [done|]. by exists [offer]. }
        assert (take (Z.to_nat n) offer = take (Z.to_nat n) (slice_from p nn)) as Htake.
        { subst offer. unfold slice_to. rewrite take_take. f_equal. lia. }
        destruct (Z.eqb_spec (nn + n) (len p)) as [Hall|Hmore].
        { intros [= <- <-]. cbn [open_fds trace]. split; [done|].
          exists [offer]. split; [done|]. split; [done|].
          split; [lia|]. split; [|done].
          cbn [received]. rewrite Htake, app_nil_r. apply received_step; lia. }
        destruct (Z.eqb_spec n 0) as [?|_]; [lia|].
        intros Hrun. apply IH in Hrun as (Hfds & offers & Htr & _ & Hr); [|lia].
        cbn [open_fds trace] in Hfds, Htr. split; [done|].
        exists (offer :: offers).
        split; [by rewrite Htr, <- app_assoc|]. split; [done|].
        cbn [received]. rewrite Htake.
        destruct r as [nn' e|nn'|]; [| |done].
        -- destruct Hr as (Hb & Heq & He). split; [lia|]. split.
           ++ rewrite Heq, received_step by lia. by rewrite <- app_assoc.
           ++ destruct e as [e|]; [|done].
              destruct He as (? & [?|(c & ? & ? & ?)]); (split; [done|]); [by left|].
              right. exists c. repeat split; try done. apply elem_of_cons. by right.
        -- destruct Hr as (Hb & Heq). split; [lia|].
           rewrite Heq, received_step by lia. by rewrite <- app_assoc.
      * assert (take (Z.to_nat n) offer = []) as Htake
          by (replace (Z.to_nat n) with 0%nat by lia; apply take_0).
        destruct (Z.eqb_spec nn (len p)) as [Hall|Hmore].
        { intros [= <- <-]. cbn [open_fds trace]. split; [done|].
          exists [offer]. split; [done|]. split; [done|].
          split; [lia|]. split; [|done].
          cbn [received]. by rewrite Htake, app_nil_r. }
        destruct (Z.eqb_spec n 0) as [Hzero|Hneg].
        { intros [= <- <-]. cbn [open_fds trace]. split; [done|].
          exists [offer]. split; [done|]. split; [done|].
          split; [lia|]. split; [|split; [done|by left]].
          cbn [received]. by rewrite Htake, app_nil_r. }
        intros Hrun. apply IH in Hrun as (Hfds & offers & Htr & _ & Hr); [|lia].
        cbn [open_fds trace] in Hfds, Htr. split; [done|].
        exists (offer :: offers).
        split; [by rewrite Htr, <- app_assoc|]. split; [done|].
        cbn [received]. rewrite Htake, app_nil_l.
        destruct r as [nn' e|nn'|]; [| |done].
        -- destruct Hr as (Hb & Heq & He). split; [done|]. split; [done|].
           destruct e as [e|]; [|done].
           destruct He as (? & [?|(c & ? & ? & ?)]); (split; [done|]); [by left|].
           right. exists c. repeat split; try done. apply elem_of_cons. by right.
        -- done.
    + destruct (Z.eqb_spec c 0) as [Hc0|Hc0].
      * case_decide as Hintr; [done|clear Hintr].
        change (0 <? -1) with false. cbn [andb].
        destruct (Z.eqb_spec nn (len p)) as [Hall|Hmore].
        { intros [= <- <-]. cbn [open_fds trace]. split; [done|].
          exists [offer]. split; [done|]. split; [done|].
          split; [lia|]. split; [|done].
          cbn [received]. by rewrite app_nil_r. }
        change (-1 =? 0) with false. cbv iota.
        intros Hrun. apply IH in Hrun as (Hfds & offers & Htr & _ & Hr); [|lia].
        cbn [open_fds trace] in Hfds, Htr. split; [done|].
        exists (offer :: offers).
        split; [by rewrite Htr, <- app_assoc|]. split; [done|].
        cbn [received].
        destruct r as [nn' e|nn'|]; [| |done].
        -- destruct Hr as (Hb & Heq & He). split; [done|]. split; [done|].
           destruct e as [e|]; [|done].
           destruct He as (? & [?|(c' & ? & ? & ?)]); (split; [done|]); [by left|].
           right. exists c'. repeat split; try done. apply elem_of_cons. by right.
        -- done.
      * case_decide as Hintr.
        -- intros Hrun. apply IH in Hrun as (Hfds & offers & Htr & _ & Hr); [|lia].
           cbn [open_fds trace] in Hfds, Htr. split; [done|].
           exists (offer :: offers).
           split; [by rewrite Htr, <- app_assoc|]. split; [done|].
           cbn [received].
           destruct r as [nn' e|nn'|]; [| |done].
           ++ destruct Hr as (Hb & Heq & He). split; [done|]. split; [done|].
              destruct e as [e|]; [|done].
              destruct He as (? & [?|(c' & ? & ? & ?)]); (split; [done|]); [by left|].
              right. exists c'. repeat split; try done. apply elem_of_cons. by right.
           ++ done.
        -- change (0 <? -1) with false. cbn [andb].
           assert (Errno c ≠ EINTR) by congruence.
           assert (∃ c', Errno c = Errno c' ∧ c' ≠ 0 ∧ WriteErr c' ∈ WriteErr c :: kw) as Herr.
           { exists c. repeat split; try done. apply elem_of_cons. by left. }
           destruct (nn =? len p); intros [= <- <-]; cbn [open_fds trace];
             (split; [done|]); exists [offer]; (split; [done|]); (split; [done|]);
             (split; [lia|]); (split; [cbn [received]; by rewrite app_nil_r|]);
             (split; [done|by right]).
Qed.
End write_loop.

(** X10.  On a reader that [Open] returned, [WriteLine] only makes
    [write(2)] calls, on the descriptor [Open] opened; the first offers
    the line followed by the terminator (up to the cap of one call), and
    it opens and closes nothing.  The bytes the kernel takes in these
    calls are the bytes of the line followed by the terminator, in
    order, none left out and none sent twice: all of them when
    [WriteLine] returns nil, and a prefix, with [pending] the rest, when
    it is left in a call that has not returned.  An error it returns is
    a path error of the device around the error of a call, never EINTR
    (the call is repeated), or around [io.ErrUnexpectedEOF] when a call
    took nothing; bytes taken before the error are a prefix. *)
Theorem WriteLine_after_Open `{UnixConsts}
    (k : OpenAnswers) (cfg : Config) (w w0 w1 : World) (s : SerialReader)
    (e0 : option error) (kw : list WriteAnswer) (out : WriteOutcome)
    (line newline : bytes) :
  Open k cfg w = ((Some s, e0), w0) → 0 ≤ fd s →
  WriteLine kw s line newline w0 = (out, w1) →
  open_fds w1 = open_fds w0 ∧
  ∃ offers,
    trace w1 = trace w0 ++ (SysWrite (fd s) <$> offers) ∧
    head offers = Some (slice_to (line ++ newline) (Z.min maxRW (len (line ++ newline)))) ∧
    match out with
    | WReturn None => received offers kw = line ++ newline
    | WReturn (Some e) =>
        received offers kw `prefix_of` line ++ newline ∧
        ∃ e', e = PathError "write" (Device cfg) e' ∧ e' ≠ EINTR ∧
              (e' = ErrUnexpectedEOF ∨ ∃ c, e' = Errno c ∧ c ≠ 0 ∧ WriteErr c ∈ kw)
    | WBlocked pending => line ++ newline = received offers kw ++ pending
    | WPanic => True
    end.
Proof.
  intros Hopen Hfd.
  destruct (Open_inv _ _ _ _ _ _ Hopen)
    as [(err & _ & Hr0 & _)|[(n & _ & Hr0 & _)
       |(n & t & p & q & _ & _ & _ & _ & _ & [= ->] & _)]]; try done.
  simpl in Hfd.
  unfold WriteLine, file_WriteString, NewFile. simpl.
  destruct (Z.ltb_spec n 0) as [?|_]; [lia|]. simpl.
  unfold mbind, M_bind, mret, M_ret.
  destruct (fd_Write n (line ++ newline) 0 kw w0) as [r w'] eqn:Hrun.
  apply fd_Write_received in Hrun as (Hfds & offers & Htr & Hhd & Hr);
    [|unfold len; lia].
  rewrite Z.sub_0_r in Hhd. change (slice_from (line ++ newline) 0) with (line ++ newline) in Hhd.
  destruct r as [nn e|nn|]; intros [= <- <-]; (split; [done|]);
    exists offers; (split; [done|]); (split; [done|]); [| |done].
  - destruct Hr as (Hb & Heq & He). simpl in Heq.
    destruct e as [e|].
    + split; [|by exists e].
      exists (slice_from (line ++ newline) nn). rewrite <- Heq.
      unfold slice_to, slice_from. by rewrite take_drop.
    + subst nn. rewrite Z.eqb_refl. rewrite <- Heq.
      unfold slice_to, len. by rewrite Nat2Z.id, firstn_all.
  - destruct Hr as (Hb & Heq). simpl in Heq. rewrite <- Heq.
    unfold slice_to, slice_from. by rewrite take_drop.
Qed.

Lemma WriteLine_after_Open_witness :
  open_fds (snd (WriteLine write_interrupted_short (reader_of LF) (B "pong") LF
                   (snd (Open answers_ok (cfg_of LF) world0))))
    = open_fds (snd (Open answers_ok (cfg_of LF) world0)) ∧
  ∃ offers,
    trace (snd (WriteLine write_interrupted_short (reader_of LF) (B "pong") LF
                  (snd (Open answers_ok (cfg_of LF) world0))))
      = trace (snd (Open answers_ok (cfg_of LF) world0)) ++ (SysWrite 3 <$> offers) ∧
    head offers = Some (B "pong" ++ LF) ∧
    received offers write_interrupted_short = B "pong" ++ LF.
Proof.
  apply (WriteLine_after_Open answers_ok (cfg_of LF) world0
           (snd (Open answers_ok (cfg_of LF) world0))
           (snd (WriteLine write_interrupted_short (reader_of LF) (B "pong") LF
                   (snd (Open answers_ok (cfg_of LF) world0))))
           (reader_of LF) None write_interrupted_short (WReturn None) (B "pong") LF).
  - vm_compute. reflexivity.
  - vm_compute. discriminate.
  - vm_compute. reflexivity.
Defined.

(** ** [ReadLine] and the framing *)

Section first_line.
Implicit Types d s c : bytes.
Implicit Types ls : list bytes.

Lemma framed_exists d s : d ≠ [] → ∃ ls rest, framed d s ls rest.
Proof.
  intros Hd.
  destruct (frame_lines_terminates d s (S (length s)) Hd) as (ls & rest & Hfl & _); [lia|].
  exists ls, rest. by eapply frame_lines_framed.
Qed.

(** The first line of a framing is what lies before the first delimiter. *)
Lemma framed_head d s ls rest :
  d ≠ [] → 0 ≤ Index s d → framed d s ls rest →
  ∃ ls', ls = slice_to s (Index s d) :: ls'.
Proof.
  intros Hd Hidx Hfr.
  pose proof (framed_frame_lines d s ls rest (S (length s)) Hd Hfr (Nat.lt_succ_diag_r _)) as Hfl.
  rewrite frame_lines_unfold in Hfl.
  destruct (Z.ltb_spec (Index s d) 0) as [?|_]; [lia|].
  destruct (frame_lines (length s) d (slice_from s (Index s d + len d))) as [[ls' rest']|];
    [|done].
  injection Hfl as <- <-. by exists ls'.
Qed.

(** A delimiter found in a prefix of the stream ends the first line of
    the whole stream. *)
Lemma framed_app_head d s c ls rest :
  d ≠ [] → 0 ≤ Index s d → framed d (s ++ c) ls rest →
  ∃ ls', ls = slice_to s (Index s d) :: ls'.
Proof.
  intros Hd Hidx Hfr.
  destruct (framed_exists d s Hd) as (ls1 & rest1 & Hfr1).
  destruct (framed_head d s ls1 rest1 Hd Hidx Hfr1) as [ls1' ->].
  destruct (framed_exists d (rest1 ++ c) Hd) as (ls2 & rest2 & Hfr2).
  pose proof (framed_app _ _ _ _ _ _ _ Hfr1 Hfr2) as Hfr'.
  destruct (framed_unique _ _ _ _ _ _ Hd Hfr Hfr') as [-> _].
  by eexists.
Qed.

Lemma framed_no_delimiter d s ls rest :
  d ≠ [] → Index s d < 0 → framed d s ls rest → ls = [] ∧ rest = s.
Proof.
  intros Hd Hidx Hfr. apply Index_neg_not_Contains in Hidx.
  destruct (framed_unique d s [] s ls rest Hd); [by apply framed_rest|done|done].
Qed.
End first_line.

Section first_line_loop.
Context `{UC : UnixConsts}.

Lemma ReadLine_from_first_line s line chunks ls rest :
  reader_open s → Delimiter (config s) ≠ [] →
  Index line (Delimiter (config s)) < 0 →
  framed (Delimiter (config s)) (line ++ concat chunks) ls rest →
  snd (ReadLine_from s line (chunk <$> chunks))
    = match ls with
      | [] => Waiting (line ++ concat chunks)
      | l :: _ => Return (l, None)
      end.
Proof.
  intros Hopen Hd. revert line.
  induction chunks as [|c cs IH]; intros line Hline Hfr.
  - simpl in *. rewrite app_nil_r in *.
    by destruct (framed_no_delimiter _ _ _ _ Hd Hline Hfr) as [-> _].
  - destruct (file_Read_open s (ReadOk c) Hopen) as [n Hrd].
    rewrite fmap_cons. unfold chunk at 1. cbn [ReadLine_from].
    rewrite (proj1 Hopen), pollin_0, pollin_POLLIN, Hrd. cbn [orb].
    cbn [concat] in Hfr. rewrite app_assoc in Hfr.
    destruct (Z.leb_spec 0 (Index (line ++ c) (Delimiter (config s)))) as [Hhit|Hmiss].
    + destruct (framed_app_head _ _ _ _ _ Hd Hhit Hfr) as [ls' ->]. done.
    + specialize (IH (line ++ c) Hmiss Hfr).
      destruct (ReadLine_from s (line ++ c) (chunk <$> cs)) as [tr out].
      simpl in *. rewrite IH. cbn [concat]. by rewrite app_assoc.
Qed.
End first_line_loop.

(** X11.  The one-shot read returns the first line of the stream: fed
    any sequence of chunks, [ReadLine] on an open reader with a non-empty
    delimiter returns, with a nil error, the first of the lines that the
    framing loop of [ReadLinesLoop] extracts from the concatenation, and
    is left waiting with everything read so far when that loop extracts
    none. *)
Theorem ReadLine_returns_first_line `{UnixConsts}
    (s : SerialReader) (chunks : list bytes) (fuel : nat)
    (ls : list bytes) (rest : bytes) :
  reader_open s → Delimiter (config s) ≠ [] →
  frame_lines fuel (Delimiter (config s)) (concat chunks) = Some (ls, rest) →
  snd (ReadLine s (chunk <$> chunks))
    = match ls with
      | [] => Waiting (concat chunks)
      | l :: _ => Return (l, None)
      end.
Proof.
  intros Hopen Hd Hfl. apply frame_lines_framed in Hfl.
  apply (ReadLine_from_first_line s [] chunks ls rest Hopen Hd); [|done].
  apply Index_neg_not_Contains. intros [i Hi]. apply occurs_at_bound in Hi.
  destruct (Delimiter (config s)); [done | simpl in Hi; lia].
Qed.

Lemma ReadLine_returns_first_line_witness :
  snd (ReadLine (reader_of CRLF)
         (chunk <$> [B "a"; CR; LF ++ B "b" ++ CRLF ++ B "c"; B "d" ++ CRLF]))
    = Return (B "a", None).
Proof.
  apply (ReadLine_returns_first_line (reader_of CRLF)
           [B "a"; CR; LF ++ B "b" ++ CRLF ++ B "c"; B "d" ++ CRLF] 20
           [B "a"; B "b"; B "cd"] []).
  - split; [reflexivity | eexists; split; reflexivity].
  - discriminate.
  - vm_compute. reflexivity.
Defined.

(** ** What the read loops do and report *)

Section loop_reports.
Context `{UC : UnixConsts}.
Implicit Types s : SerialReader.

Lemma file_Read_inv s rd acts r :
  file_Read (file s) rd = (acts, r) →
  Forall (loop_syscall s) acts ∧
  (∀ e evs closed revDev revPipe,
     r = ReadErr e → EvPoll closed revDev revPipe rd ∈ evs → read_error s evs e).
Proof.
  unfold file_Read. destruct (file s) as [f|] eqn:Hf.
  - destruct (file_closed f) eqn:Hc; intros [= <- <-]; split.
    + constructor.
    + intros e evs c rD rP [= <-] _. right; right. by exists f.
    + constructor; [|constructor]. right; right. by exists f.
    + intros e evs c rD rP -> Hin. left. by exists c, rD, rP.
  - intros [= <- <-]. split; [constructor|].
    intros e evs c rD rP [= <-] _. right; left. done.
Qed.

Lemma read_error_cons s ev evs e : read_error s evs e → read_error s (ev :: evs) e.
Proof.
  intros [(c & rD & rP & Hin)|[?|?]]; [left|right; by left|right; by right].
  exists c, rD, rP. by right.
Qed.

Lemma ReadLine_from_reports s line evs tr out :
  ReadLine_from s line evs = (tr, out) →
  Forall (loop_syscall s) tr ∧
  ∀ l e, out = Return (l, Some e) →
         l = [] ∧ (e = ErrReaderClosed ∨ EvPollErr e ∈ evs ∨ read_error s evs e).
Proof.
  assert (loop_syscall s (SysPoll [fd s; pipeR s])) as Hpoll by (by left).
  assert (loop_syscall s (SysRead (pipeR s) 1)) as Hdrain by (right; by left).
  revert line tr out. induction evs as [|ev evs IH]; intros line tr out.
  { intros [= <- <-]. split; [by repeat constructor|done]. }
  destruct ev as [e0|closed revDev revPipe rd]; cbn [ReadLine_from].
  { intros [= <- <-]. split; [by repeat constructor|].
    intros l e [= <- <-]. split; [done|]. right; left. by left. }
  destruct (done s || closed).
  { intros [= <- <-]. split; [by repeat constructor|].
    intros l e [= <- <-]. split; [done|]. by left. }
  destruct (pollin revPipe).
  { intros [= <- <-]. split; [by repeat constructor|].
    intros l e [= <- <-]. split; [done|]. by left. }
  destruct (pollin revDev).
  - destruct (file_Read (file s) rd) as [acts r] eqn:Hrd.
    destruct (file_Read_inv _ _ _ _ Hrd) as [Hacts Herr].
    destruct r as [data|e0].
    + destruct (0 <=? Index (line ++ data) (Delimiter (config s))).
      * intros [= <- <-]. split; [by constructor|]. by intros l e [= _ ?].
      * destruct (ReadLine_from s (line ++ data) evs) as [tr' out'] eqn:Hrec.
        intros [= <- <-]. destruct (IH _ _ _ Hrec) as [Htr Hout].
        split; [constructor; [done|by apply Forall_app]|].
        intros l e Heq. destruct (Hout l e Heq) as [-> [?|[?|?]]].
        -- split; [done|]. by left.
        -- split; [done|]. right; left. by right.
        -- split; [done|]. right; right. by apply read_error_cons.
    + intros [= <- <-]. split; [by constructor|].
      intros l e [= <- <-]. split; [done|]. right; right.
      eapply Herr; [done|]. by left.
  - destruct (ReadLine_from s line evs) as [tr' out'] eqn:Hrec.
    intros [= <- <-]. destruct (IH _ _ _ Hrec) as [Htr Hout].
    split; [by constructor|].
    intros l e Heq. destruct (Hout l e Heq) as [-> [?|[?|?]]].
    + split; [done|]. by left.
    + split; [done|]. right; left. by right.
    + split; [done|]. right; right. by apply read_error_cons.
Qed.
End loop_reports.

(** X12.  [ReadLine] never returns a line together with an error: an
    error comes with the empty line, and it is the closed-state error or,
    unwrapped, the error the wait or the device read of that call met.
    All the call does to the system is wait on its two descriptors and
    read from them: it opens, writes and closes nothing. *)
Theorem ReadLine_reports `{UnixConsts}
    (s : SerialReader) (evs : list Event) (tr : list Action)
    (out : Outcome (bytes * option error)) :
  ReadLine s evs = (tr, out) →
  Forall (loop_syscall s) tr ∧
  ∀ l e, out = Return (l, Some e) →
         l = [] ∧ (e = ErrReaderClosed ∨ EvPollErr e ∈ evs ∨ read_error s evs e).
Proof. apply ReadLine_from_reports. Qed.

Lemma ReadLine_reports_witness :
  Forall (loop_syscall (reader_of LF)) [SysPoll [3; 4]; SysRead 3 4096] ∧
  ∀ l e, Return (@nil byte, Some EIO) = Return (l, Some e) →
         l = [] ∧ (e = ErrReaderClosed ∨
                   EvPollErr e ∈ [EvPoll false POLLIN 0 (ReadErr EIO)] ∨
                   read_error (reader_of LF) [EvPoll false POLLIN 0 (ReadErr EIO)] e).
Proof.
  apply (ReadLine_reports (reader_of LF) [EvPoll false POLLIN 0 (ReadErr EIO)]
           [SysPoll [3; 4]; SysRead 3 4096] (Return (@nil byte, Some EIO))).
  vm_compute. reflexivity.
Defined.

Section loop_reports_continuous.
Context `{UC : UnixConsts}.
Implicit Types s : SerialReader.

Lemma loop_action_lines s (ls : list bytes) : Forall (loop_action s) (CallOnLine <$> ls).
Proof.
  induction ls as [|l ls IH]; [constructor|].
  rewrite fmap_cons. constructor; [|done]. right; left. by exists l.
Qed.

Lemma ReadLinesLoop_from_reports fuel s line evs tr out :
  ReadLinesLoop_from fuel s line evs = Some (tr, out) →
  Forall (loop_action s) tr ∧
  (onError_calls tr = [] ∨
   ∃ tr' e, tr = tr' ++ [CallOnError e] ∧ onError_calls tr' = [] ∧ out = Return () ∧
            (EvPollErr e ∈ evs ∨ read_error s evs e)).
Proof.
  assert (loop_action s (SysPoll [fd s; pipeR s])) as Hpoll by (left; by left).
  assert (loop_action s (SysRead (pipeR s) 1)) as Hdrain by (left; right; by left).
  revert line tr out. induction evs as [|ev evs IH]; intros line tr out.
  { intros [= <- <-]. split; [by repeat constructor|by left]. }
  destruct ev as [e0|closed revDev revPipe rd]; cbn [ReadLinesLoop_from].
  { intros [= <- <-]. split.
    - constructor; [done|]. constructor; [|constructor]. right; right. by exists e0.
    - right. exists [SysPoll [fd s; pipeR s]], e0. repeat split; try done. left. by left. }
  destruct (done s || closed).
  { intros [= <- <-]. split; [by repeat constructor|by left]. }
  destruct (pollin revPipe).
  { intros [= <- <-]. split; [by repeat constructor|by left]. }
  destruct (pollin revDev).
  - destruct (file_Read (file s) rd) as [acts r] eqn:Hrd.
    destruct (file_Read_inv _ _ _ _ Hrd) as [Hacts Herr].
    destruct (file_Read_calls _ _ _ _ Hrd) as [_ Hnoerr].
    assert (Forall (loop_action s) acts) as Hacts'.
    { eapply Forall_impl; [exact Hacts|]. intros a Ha. by left. }
    destruct r as [data|e0].
    + destruct (frame_lines fuel (Delimiter (config s)) (line ++ data))
        as [[ls rest]|]; [|done].
      destruct (ReadLinesLoop_from fuel s rest evs) as [[tr' out']|] eqn:Hrec; [|done].
      intros [= <- <-]. destruct (IH _ _ _ Hrec) as [Htr Hout]. split.
      * constructor; [done|]. apply Forall_app. split; [done|].
        apply Forall_app. split; [apply loop_action_lines|done].
      * destruct Hout as [Hnone|(tr'' & e & -> & Hnone & -> & Hsrc)].
        -- left. change (onError_calls ([SysPoll [fd s; pipeR s]] ++ acts
                                          ++ (CallOnLine <$> ls) ++ tr') = []).
           by rewrite !onError_calls_app, Hnoerr, onError_calls_lines, Hnone.
        -- right. exists (SysPoll [fd s; pipeR s] :: acts ++ (CallOnLine <$> ls) ++ tr''), e.
           split; [simpl; by rewrite <- !app_assoc|]. split; [|split; [done|]].
           ++ change (onError_calls ([SysPoll [fd s; pipeR s]] ++ acts
                                       ++ (CallOnLine <$> ls) ++ tr'') = []).
              by rewrite !onError_calls_app, Hnoerr, onError_calls_lines, Hnone.
           ++ destruct Hsrc as [?|?]; [left; by right|right; by apply read_error_cons].
    + intros [= <- <-]. split.
      * constructor; [done|]. apply Forall_app. split; [done|].
        constructor; [|constructor]. right; right. by exists e0.
      * right. exists (SysPoll [fd s; pipeR s] :: acts), e0.
        split; [done|]. split; [|split; [done|]].
        -- change (onError_calls ([SysPoll [fd s; pipeR s]] ++ acts) = []).
           by rewrite onError_calls_app, Hnoerr.
        -- right. eapply Herr; [done|]. by left.
  - destruct (ReadLinesLoop_from fuel s line evs) as [[tr' out']|] eqn:Hrec; [|done].
    intros [= <- <-]. destruct (IH _ _ _ Hrec) as [Htr Hout]. split; [by constructor|].
    destruct Hout as [Hnone|(tr'' & e & -> & Hnone & -> & Hsrc)].
    + by left.
    + right. exists (SysPoll [fd s; pipeR s] :: tr''), e.
      split; [done|]. split; [done|]. split; [done|].
      destruct Hsrc as [?|?]; [left; by right|right; by apply read_error_cons].
Qed.
End loop_reports_continuous.

(** X13.  [ReadLinesLoop] reports at most one error: [onError] is called
    at most once, as the last thing the loop does before it returns, with
    the error, unwrapped, that the wait or the device read met; no line is
    delivered after an error.  All the loop does besides calling its
    callbacks is wait on its two descriptors and read from them. *)
Theorem ReadLinesLoop_reports `{UnixConsts}
    (fuel : nat) (s : SerialReader) (evs : list Event) (tr : list Action)
    (out : Outcome ()) :
  ReadLinesLoop fuel s evs = Some (tr, out) →
  Forall (loop_action s) tr ∧
  (onError_calls tr = [] ∨
   ∃ tr' e, tr = tr' ++ [CallOnError e] ∧ onError_calls tr' = [] ∧ out = Return () ∧
            (EvPollErr e ∈ evs ∨ read_error s evs e)).
Proof. apply ReadLinesLoop_from_reports. Qed.

Lemma ReadLinesLoop_reports_witness :
  Forall (loop_action (reader_of LF))
    [SysPoll [3; 4]; SysRead 3 4096; CallOnLine (B "a"); SysPoll [3; 4]; CallOnError EIO] ∧
  (onError_calls
     [SysPoll [3; 4]; SysRead 3 4096; CallOnLine (B "a"); SysPoll [3; 4]; CallOnError EIO]
     = [] ∨
   ∃ tr' e,
     [SysPoll [3; 4]; SysRead 3 4096; CallOnLine (B "a"); SysPoll [3; 4]; CallOnError EIO]
       = tr' ++ [CallOnError e] ∧
     onError_calls tr' = [] ∧ Return () = Return () ∧
     (EvPollErr e ∈ [chunk (B "a" ++ LF); EvPollErr EIO; chunk (B "b" ++ LF)] ∨
      read_error (reader_of LF)
        [chunk (B "a" ++ LF); EvPollErr EIO; chunk (B "b" ++ LF)] e)).
Proof.
  apply (ReadLinesLoop_reports 8 (reader_of LF)
           [chunk (B "a" ++ LF); EvPollErr EIO; chunk (B "b" ++ LF)]
           [SysPoll [3; 4]; SysRead 3 4096; CallOnLine (B "a"); SysPoll [3; 4];
            CallOnError EIO]
           (Return ())).
  vm_compute. reflexivity.
Defined.

(** ** Carrying on from the buffer *)

Section resume.
Context `{UC : UnixConsts}.
Implicit Types s : SerialReader.

Lemma ReadLinesLoop_from_app fuel s line evs1 evs2 tr1 rest :
  ReadLinesLoop_from fuel s line evs1 = Some (tr1, Waiting rest) →
  ∃ tr1', tr1 = tr1' ++ [SysPoll [fd s; pipeR s]] ∧
    ReadLinesLoop_from fuel s line (evs1 ++ evs2)
      = match ReadLinesLoop_from fuel s rest evs2 with
        | Some (tr2, out) => Some (tr1' ++ tr2, out)
        | None => None
        end.
Proof.
  revert line tr1. induction evs1 as [|ev evs1 IH]; intros line tr1.
  { intros [= <- <-]. exists []. split; [done|]. simpl.
    by destruct (ReadLinesLoop_from fuel s line evs2) as [[? ?]|]. }
  destruct ev as [e0|closed revDev revPipe rd];
    rewrite <- app_comm_cons; cbn [ReadLinesLoop_from]; [done|].
  destruct (done s || closed); [done|].
  destruct (pollin revPipe); [done|].
  destruct (pollin revDev).
  - destruct (file_Read (file s) rd) as [acts [data|e0]]; [|done].
    destruct (frame_lines fuel (Delimiter (config s)) (line ++ data))
      as [[ls rest0]|]; [|done].
    destruct (ReadLinesLoop_from fuel s rest0 evs1) as [[tr' out']|] eqn:Hrec; [|done].
    intros [= <- ->]. destruct (IH _ _ Hrec) as (tr1' & -> & ->).
    exists (SysPoll [fd s; pipeR s] :: acts ++ (CallOnLine <$> ls) ++ tr1').
    split; [simpl; by rewrite <- !app_assoc|].
    destruct (ReadLinesLoop_from fuel s rest evs2) as [[tr2 out]|]; [|done].
    simpl. by rewrite <- !app_assoc.
  - destruct (ReadLinesLoop_from fuel s line evs1) as [[tr' out']|] eqn:Hrec; [|done].
    intros [= <- ->]. destruct (IH _ _ Hrec) as (tr1' & -> & ->).
    exists (SysPoll [fd s; pipeR s] :: tr1'). split; [done|].
    by destruct (ReadLinesLoop_from fuel s rest evs2) as [[tr2 out]|].
Qed.

Lemma ReadLine_from_app s line evs1 evs2 tr1 rest :
  ReadLine_from s line evs1 = (tr1, Waiting rest) →
  ∃ tr1', tr1 = tr1' ++ [SysPoll [fd s; pipeR s]] ∧
    ReadLine_from s line (evs1 ++ evs2)
      = (tr1' ++ fst (ReadLine_from s rest evs2), snd (ReadLine_from s rest evs2)).
Proof.
  revert line tr1. induction evs1 as [|ev evs1 IH]; intros line tr1.
  { intros [= <- <-]. exists []. split; [done|]. simpl.
    by destruct (ReadLine_from s line evs2). }
  destruct ev as [e0|closed revDev revPipe rd];
    rewrite <- app_comm_cons; cbn [ReadLine_from]; [done|].
  destruct (done s || closed); [done|].
  destruct (pollin revPipe); [done|].
  destruct (pollin revDev).
  - destruct (file_Read (file s) rd) as [acts [data|e0]]; [|done].
    destruct (0 <=? Index (line ++ data) (Delimiter (config s))); [done|].
    destruct (ReadLine_from s (line ++ data) evs1) as [tr' out'] eqn:Hrec.
    intros [= <- ->]. destruct (IH _ _ Hrec) as (tr1' & -> & ->).
    exists (SysPoll [fd s; pipeR s] :: acts ++ tr1').
    split; [simpl; by rewrite <- !app_assoc|].
    simpl. by rewrite <- !app_assoc.
  - destruct (ReadLine_from s line evs1) as [tr' out'] eqn:Hrec.
    intros [= <- ->]. destruct (IH _ _ Hrec) as (tr1' & -> & ->).
    by exists (SysPoll [fd s; pipeR s] :: tr1').
Qed.

Lemma ReadLinesLoop_from_waiting_clean fuel s line evs tr rest :
  Delimiter (config s) ≠ [] →
  ¬ Contains line (Delimiter (config s)) →
  ReadLinesLoop_from fuel s line evs = Some (tr, Waiting rest) →
  ¬ Contains rest (Delimiter (config s)).
Proof.
  intros Hd. revert line tr. induction evs as [|ev evs IH]; intros line tr Hline.
  { by intros [= <- <-]. }
  destruct ev as [e0|closed revDev revPipe rd]; cbn [ReadLinesLoop_from]; [done|].
  destruct (done s || closed); [done|].
  destruct (pollin revPipe); [done|].
  destruct (pollin revDev).
  - destruct (file_Read (file s) rd) as [acts [data|e0]]; [|done].
    destruct (frame_lines fuel (Delimiter (config s)) (line ++ data))
      as [[ls rest0]|] eqn:Hfl; [|done].
    destruct (ReadLinesLoop_from fuel s rest0 evs) as [[tr' out']|] eqn:Hrec; [|done].
    intros [= <- ->]. eapply IH; [|exact Hrec].
    eapply framed_rest_no_delimiter, frame_lines_framed, Hfl.
  - destruct (ReadLinesLoop_from fuel s line evs) as [[tr' out']|] eqn:Hrec; [|done].
    intros [= <- ->]. by eapply IH.
Qed.

Lemma ReadLine_from_waiting_clean s line evs tr rest :
  ¬ Contains line (Delimiter (config s)) →
  ReadLine_from s line evs = (tr, Waiting rest) →
  ¬ Contains rest (Delimiter (config s)).
Proof.
  revert line tr. induction evs as [|ev evs IH]; intros line tr Hline.
  { by intros [= <- <-]. }
  destruct ev as [e0|closed revDev revPipe rd]; cbn [ReadLine_from]; [done|].
  destruct (done s || closed); [done|].
  destruct (pollin revPipe); [done|].
  destruct (pollin revDev).
  - destruct (file_Read (file s) rd) as [acts [data|e0]]; [|done].
    destruct (Z.leb_spec 0 (Index (line ++ data) (Delimiter (config s)))) as [?|Hmiss];
      [done|].
    destruct (ReadLine_from s (line ++ data) evs) as [tr' out'] eqn:Hrec.
    intros [= <- ->]. eapply IH; [|exact Hrec]. by apply Index_neg_not_Contains.
  - destruct (ReadLine_from s line evs) as [tr' out'] eqn:Hrec.
    intros [= <- ->]. by eapply IH.
Qed.
End resume.

(** X14.  A continuous read left waiting carries on from its buffer:
    when [ReadLinesLoop] on a script is left in the wait with [rest]
    buffered, the loop on that script followed by more events does what
    it did, up to that wait, and then what the loop started on the buffer
    [rest] does on the further events.  Nothing but the buffer passes
    from one turn to the next. *)
Theorem ReadLinesLoop_resumes `{UnixConsts}
    (fuel : nat) (s : SerialReader) (evs1 evs2 : list Event)
    (tr1 : list Action) (rest : bytes) :
  ReadLinesLoop fuel s evs1 = Some (tr1, Waiting rest) →
  ∃ tr1', tr1 = tr1' ++ [SysPoll [fd s; pipeR s]] ∧
    ReadLinesLoop fuel s (evs1 ++ evs2)
      = match ReadLinesLoop_from fuel s rest evs2 with
        | Some (tr2, out) => Some (tr1' ++ tr2, out)
        | None => None
        end.
Proof. apply ReadLinesLoop_from_app. Qed.

Lemma ReadLinesLoop_resumes_witness :
  ∃ tr1',
    [SysPoll [3; 4]; SysRead 3 4096; CallOnLine (B "a"); SysPoll [3; 4]]
      = tr1' ++ [SysPoll [fd (reader_of LF); pipeR (reader_of LF)]] ∧
    ReadLinesLoop 8 (reader_of LF) ([chunk (B "a" ++ LF ++ B "b")] ++ [chunk (B "c" ++ LF)])
      = match ReadLinesLoop_from 8 (reader_of LF) (B "b") [chunk (B "c" ++ LF)] with
        | Some (tr2, out) => Some (tr1' ++ tr2, out)
        | None => None
        end.
Proof.
  apply (ReadLinesLoop_resumes 8 (reader_of LF) [chunk (B "a" ++ LF ++ B "b")]
           [chunk (B "c" ++ LF)]
           [SysPoll [3; 4]; SysRead 3 4096; CallOnLine (B "a"); SysPoll [3; 4]] (B "b")).
  vm_compute. reflexivity.
Defined.

(** X15.  The same for the one-shot read while it has not returned: a
    [ReadLine] left waiting with [rest] buffered goes on, when more events
    come, as a [ReadLine] started on the buffer [rest]. *)
Theorem ReadLine_resumes `{UnixConsts}
    (s : SerialReader) (evs1 evs2 : list Event) (tr1 : list Action) (rest : bytes) :
  ReadLine s evs1 = (tr1, Waiting rest) →
  ∃ tr1', tr1 = tr1' ++ [SysPoll [fd s; pipeR s]] ∧
    ReadLine s (evs1 ++ evs2)
      = (tr1' ++ fst (ReadLine_from s rest evs2), snd (ReadLine_from s rest evs2)).
Proof. apply ReadLine_from_app. Qed.

Lemma ReadLine_resumes_witness :
  ∃ tr1',
    [SysPoll [3; 4]; SysRead 3 4096; SysPoll [3; 4]]
      = tr1' ++ [SysPoll [fd (reader_of LF); pipeR (reader_of LF)]] ∧
    ReadLine (reader_of LF) ([chunk (B "hel")] ++ [chunk (B "lo" ++ LF)])
      = (tr1' ++ fst (ReadLine_from (reader_of LF) (B "hel") [chunk (B "lo" ++ LF)]),
         snd (ReadLine_from (reader_of LF) (B "hel") [chunk (B "lo" ++ LF)])).
Proof.
  apply (ReadLine_resumes (reader_of LF) [chunk (B "hel")] [chunk (B "lo" ++ LF)]
           [SysPoll [3; 4]; SysRead 3 4096; SysPoll [3; 4]] (B "hel")).
  vm_compute. reflexivity.
Defined.

(** X16.  Whatever the script of events, a read loop that is back in
    the wait holds no complete line: with a non-empty delimiter, the
    buffer of a waiting [ReadLinesLoop] and the buffer of a waiting
    [ReadLine] contain no delimiter. *)
Theorem waiting_buffer_holds_no_delimiter `{UnixConsts}
    (s : SerialReader) (evs : list Event) :
  Delimiter (config s) ≠ [] →
  (∀ fuel tr rest, ReadLinesLoop fuel s evs = Some (tr, Waiting rest) →
                   ¬ Contains rest (Delimiter (config s)) ∧
                   Index rest (Delimiter (config s)) = -1) ∧
  (∀ tr rest, ReadLine s evs = (tr, Waiting rest) →
              ¬ Contains rest (Delimiter (config s)) ∧
              Index rest (Delimiter (config s)) = -1).
Proof.
  intros Hd.
  assert (¬ Contains [] (Delimiter (config s))) as Hnil.
  { intros [i Hi]. apply occurs_at_bound in Hi.
    destruct (Delimiter (config s)); [done | simpl in Hi; lia]. }
  assert (∀ l, ¬ Contains l (Delimiter (config s)) → Index l (Delimiter (config s)) = -1)
    as Hidx.
  { intros l Hl. apply Index_neg_not_Contains, Index_neg in Hl. unfold Index. by rewrite Hl. }
  split.
  - intros fuel tr rest Hrun.
    assert (¬ Contains rest (Delimiter (config s)))
      by (by eapply (ReadLinesLoop_from_waiting_clean fuel s [])).
    auto.
  - intros tr rest Hrun.
    assert (¬ Contains rest (Delimiter (config s)))
      by (by eapply (ReadLine_from_waiting_clean s [])).
    auto.
Qed.

Lemma waiting_buffer_holds_no_delimiter_witness :
  (∀ fuel tr rest,
     ReadLinesLoop fuel (reader_of CRLF) [chunk (B "a" ++ CR); chunk (LF ++ B "b" ++ CR)]
       = Some (tr, Waiting rest) →
     ¬ Contains rest CRLF ∧ Index rest CRLF = -1) ∧
  (∀ tr rest,
     ReadLine (reader_of CRLF) [chunk (B "a" ++ CR); chunk (LF ++ B "b" ++ CR)]
       = (tr, Waiting rest) →
     ¬ Contains rest CRLF ∧ Index rest CRLF = -1).
Proof.
  apply (waiting_buffer_holds_no_delimiter (reader_of CRLF)
           [chunk (B "a" ++ CR); chunk (LF ++ B "b" ++ CR)]).
  discriminate.
Defined.
